(** * Dependency-graph visualizer: a shallow embedding of
      [dependency_visualizer.py] and the properties of its graph engine.

    The embedding follows the Python source function by function:
    - a Python [dict] is an insertion-ordered association list ([dict_get],
      [dict_set]); iteration order is the list order;
    - the set [visited_packages] is a [gset string];
    - exceptions are values of [exn]; a call that may raise returns a
      [result], a traversal that mutates the visualizer and may raise returns
      an [outcome] carrying the state reached;
    - file and network reads are oracles collected in a [world];
    - what a manifest or a registry version holds under "dependencies" is
      any JSON value ([dependencies_value]); the adapter returns it and a
      record stores it as it is, mapping or not;
    - the recursion of the depth-first builder and the [while] loop of the
      breadth-first builder are driven by a fuel argument ([None] = out of
      fuel);
    - the functions that walk the dependencies of every record (reverse
      index, exporters, cycle finder) are modelled on graphs whose records
      hold mappings and return [None] on others. *)

From Stdlib Require Import String Ascii List Arith Lia Sorted.
From stdpp Require Import base option list gmap strings.

Set Warnings "-register-all".
Open Scope string_scope.
Open Scope list_scope.
Open Scope stdpp_scope.

(** ** Python dictionaries (insertion ordered) *)

Section PyDict.
Context {V : Type}.

(** [d.get(k)] / [d[k]] *)
Fixpoint dict_get (d : list (string * V)) (k : string) : option V :=
  match d with
  | [] => None
  | (k', v) :: d' => if decide (k = k') then Some v else dict_get d' k
  end.

(** [d[k] = v]: an existing key keeps its position, a new key goes last. *)
Fixpoint dict_set (d : list (string * V)) (k : string) (v : V)
  : list (string * V) :=
  match d with
  | [] => [(k, v)]
  | (k', v') :: d' =>
      if decide (k = k') then (k, v) :: d' else (k', v') :: dict_set d' k v
  end.

(** [d.keys()] in iteration order *)
Definition dict_keys (d : list (string * V)) : list string := d.*1.

(** [k in d] *)
Definition dict_has (d : list (string * V)) (k : string) : bool :=
  bool_decide (k ∈ dict_keys d).
End PyDict.

(** ** Values read from JSON files *)

Inductive json : Type :=
| JNull
| JBool (b : bool)
| JNumber (literal : string)
| JString (s : string)
| JArray (items : list json)
| JObject (members : list (string * json)).

(** The value found under "dependencies" in a manifest or in a version
    entry of the registry, as Python holds it after parsing: a [dict] for a
    JSON object, with its members in order, or the value of another JSON
    type.  Of a number only its Python type and whether it is zero are
    kept: nothing else of it is looked at. *)
Inductive dependencies_value : Type :=
| Mapping (members : list (string * json))
| Null
| Boolean (b : bool)
| Number (is_float : bool) (nonzero : bool)
| Text (s : string)
| Sequence (items : list json).

(** [isinstance(value, dict)] *)
Definition is_mapping (value : dependencies_value) : bool :=
  match value with
  | Mapping _ => true
  | _ => false
  end.

(** Python truthiness, as in [if version_data.get("dependencies"):] and
    [not info['dependencies']] *)
Definition truthy (value : dependencies_value) : bool :=
  match value with
  | Mapping members => negb (bool_decide (members = []))
  | Null => false
  | Boolean b => b
  | Number _ nonzero => nonzero
  | Text s => negb (bool_decide (s = ""))
  | Sequence items => match items with [] => false | _ :: _ => true end
  end.

(** [type(value).__name__] *)
Definition type_name (value : dependencies_value) : string :=
  match value with
  | Mapping _ => "dict"
  | Null => "NoneType"
  | Boolean _ => "bool"
  | Number false _ => "int"
  | Number true _ => "float"
  | Text _ => "str"
  | Sequence _ => "list"
  end.

(** The keys of a mapping in iteration order: [value.keys()], and what
    [for dep in value] walks, when [value] is a mapping.  A value that is
    not a mapping has no keys; each function below that iterates over the
    dependencies of a record says what it does with such a value. *)
Definition mapping_keys (value : dependencies_value) : list string :=
  match value with
  | Mapping members => dict_keys members
  | _ => []
  end.

(** [{dep: "*" for dep in deps}] *)
Definition star_dict (deps : list string) : list (string * json) :=
  foldl (fun d dep => dict_set d dep (JString "*")) [] deps.

(** What reading and parsing a file at some path gives. *)
Inductive file_state (A : Type) : Type :=
| Missing                      (* no such file *)
| Unreadable (msg : string)    (* IOError while opening or reading *)
| Undecodable (msg : string)   (* UnicodeDecodeError: not UTF-8 *)
| Malformed (msg : string)     (* json.JSONDecodeError *)
| Content (a : A).
Arguments Missing {A}.
Arguments Unreadable {A} msg.
Arguments Undecodable {A} msg.
Arguments Malformed {A} msg.
Arguments Content {A} a.

(** ** Exceptions *)

Inductive exn : Type :=
| DependencyError (msg : string)
| GraphError (msg : string)
| OtherError (msg : string).   (* any other Exception, with its [str] *)

Inductive result (A : Type) : Type :=
| Ok (a : A)
| Raise (e : exn).
Arguments Ok {A} a.
Arguments Raise {A} e.

(** ** Configuration *)

Inductive RepositoryMode : Type := TEST | REMOTE | GRAPH_FILE.

Record config : Type := {
  package_name : string;
  repository_url : string;
  repository_mode : RepositoryMode
}.

(** ** Source adapter *)

(** The parsed content of a [package.json]: a JSON object with the value
    of its "dependencies" member, if it has one, or another JSON value, on
    which [.get] raises an [AttributeError] with the given text. *)
Inductive manifest : Type :=
| ManifestObject (manifest_dependencies : option dependencies_value)
| ManifestOther (attribute_error : string).

(** One entry of the registry's "versions" object: an object with the
    value of its "dependencies" member, if it has one. *)
Record version_data : Type := {
  version_dependencies : option dependencies_value
}.

(** The registry's answer for a package, of the shape the registry
    documents: the optional "versions" object, keyed by version string, and
    the optional "dist-tags" object. *)
Record package_info : Type := {
  info_versions : option (list (string * version_data));
  info_dist_tags : option (list (string * string))
}.

(** The outside world the adapter reads. *)
Record world : Type := {
  (** the manifest at [repo_path/package/package.json] *)
  package_json : string -> string -> file_state manifest;
  (** [_fetch_package_info_from_npm]: the [DependencyError] message it
      raises, or the decoded answer *)
  npm_registry : string -> string + package_info;
  (** the JSON file at a path *)
  graph_json : string -> file_state json
}.

(** [sorted(keys, reverse=True)] on strings: descending code-unit order. *)
Fixpoint insert_desc (x : string) (l : list string) : list string :=
  match l with
  | [] => [x]
  | y :: l' => if String.ltb y x then x :: y :: l' else y :: insert_desc x l'
  end.

Definition sorted_reverse (l : list string) : list string :=
  foldr insert_desc [] l.

(** Python truthiness of [version_data.get("dependencies")] *)
Definition has_dependencies (vd : version_data) : bool :=
  match version_dependencies vd with
  | Some value => truthy value
  | None => false
  end.

(** [latest_version and latest_version in versions] *)
Definition latest_known (latest : option string)
    (versions : list (string * version_data)) : bool :=
  match latest with
  | Some v => negb (bool_decide (v = "")) && dict_has versions v
  | None => false
  end.

(** [versions[version].get("dependencies")] as a condition *)
Definition version_has_dependencies
    (versions : list (string * version_data)) (version : string) : bool :=
  match dict_get versions version with
  | Some version_data => has_dependencies version_data
  | None => false
  end.

Definition _find_version_with_dependencies (info : package_info)
    : option string :=
  let versions := default [] (info_versions info) in
  let latest_version := dict_get (default [] (info_dist_tags info)) "latest" in
  if latest_known latest_version versions &&
     match latest_version with
     | Some v => version_has_dependencies versions v
     | None => false
     end
  then latest_version
  else
    let sorted_versions := sorted_reverse (dict_keys versions) in
    match List.find (version_has_dependencies versions) sorted_versions with
    | Some version => Some version
    | None =>
        if latest_known latest_version versions then latest_version
        else head sorted_versions
    end.

(** [package_data.get("dependencies", {})] is returned as it is: the
    declared return type [Dict[str, str]] is not checked. *)
Definition _get_dependencies_from_test_repo (w : world)
    (package repo_path : string) : result dependencies_value :=
  match package_json w repo_path package with
  | Missing =>
      Raise (DependencyError
               ("Файл package.json не найден для пакета " +:+ package +:+
                " в тестовом репозитории"))
  | Content (ManifestObject dependencies) =>
      Ok (default (Mapping []) dependencies)
  | Content (ManifestOther e) => Raise (OtherError e)
  | Malformed e =>
      Raise (DependencyError ("Ошибка парсинга package.json: " +:+ e))
  | Unreadable e =>
      Raise (DependencyError ("Ошибка чтения package.json: " +:+ e))
  | Undecodable e => Raise (OtherError e)
  end.

(** [isinstance(dep, str)] for every element of a JSON array *)
Fixpoint strings_of (items : list json) : option (list string) :=
  match items with
  | [] => Some []
  | JString s :: rest => cons s <$> strings_of rest
  | _ :: _ => None
  end.

(** The validation loop of [_load_graph_from_file] over the members of the
    top-level object, in their order; the keys of a parsed JSON object are
    strings, so the check of the keys never fails. *)
Fixpoint validate_graph (members : list (string * json))
    : result (list (string * list string)) :=
  match members with
  | [] => Ok []
  | (package, JArray items) :: rest =>
      match strings_of items with
      | Some deps =>
          match validate_graph rest with
          | Ok graph => Ok ((package, deps) :: graph)
          | Raise e => Raise e
          end
      | None =>
          Raise (GraphError
                   ("Зависимости должны быть строками в пакете " +:+ package))
      end
  | (package, _) :: _ =>
      Raise (GraphError
               ("Зависимости для пакета " +:+ package +:+
                " должны быть списком"))
  end.

Definition _load_graph_from_file (w : world) (file_path : string)
    : result (list (string * list string)) :=
  match graph_json w file_path with
  | Content (JObject members) => validate_graph members
  | Content _ => Raise (GraphError "Файл графа должен содержать JSON объект")
  | Malformed e =>
      Raise (GraphError ("Ошибка парсинга JSON в файле графа: " +:+ e))
  | Unreadable e =>
      Raise (GraphError ("Ошибка чтения файла графа: " +:+ e))
  | Undecodable e => Raise (OtherError e)
  | Missing =>
      Raise (GraphError
               ("Ошибка чтения файла графа: " +:+
                "[Errno 2] No such file or directory: '" +:+ file_path +:+
                "'"))
  end.

(** The message of [except Exception as e: raise DependencyError(...)] *)
Definition unexpected (e : string) : string :=
  "Неожиданная ошибка при получении зависимостей: " +:+ e.

(** The two handlers of [get_direct_dependencies]: a [DependencyError] is
    re-raised, any other exception becomes a [DependencyError]. *)
Definition as_dependency_error {A : Type} (r : result A) : result A :=
  match r with
  | Ok a => Ok a
  | Raise (DependencyError msg) => Raise (DependencyError msg)
  | Raise (GraphError msg) | Raise (OtherError msg) =>
      Raise (DependencyError (unexpected msg))
  end.

Definition get_direct_dependencies (w : world) (cfg : config)
    (package : string) : result dependencies_value :=
  as_dependency_error
    match repository_mode cfg with
    | REMOTE =>
        match npm_registry w package with
        | inl msg => Raise (DependencyError msg)
        | inr info =>
            match _find_version_with_dependencies info with
            | None => Ok (Mapping [])
            | Some version_to_use =>
                if bool_decide (version_to_use = "") then Ok (Mapping [])
                else
                  (* package_info["versions"][version_to_use] *)
                  match info_versions info with
                  | None => Raise (OtherError "'versions'")
                  | Some versions =>
                      match dict_get versions version_to_use with
                      | None =>
                          Raise (OtherError ("'" +:+ version_to_use +:+ "'"))
                      | Some version_info =>
                          (* version_info.get("dependencies", {}) *)
                          Ok (default (Mapping [])
                                (version_dependencies version_info))
                      end
                  end
            end
        end
    | TEST => _get_dependencies_from_test_repo w package (repository_url cfg)
    | GRAPH_FILE =>
        match _load_graph_from_file w (repository_url cfg) with
        | Raise e => Raise e
        | Ok graph =>
            match dict_get graph package with
            | Some deps => Ok (Mapping (star_dict deps))
            | None => Ok (Mapping [])
            end
        end
    end.

(** ** Graph builder *)

(** A record of the graph.  Its ['dependencies'] is what the adapter
    returned, or an empty mapping beside an error. *)
Record node : Type := {
  dependencies : dependencies_value;
  level : nat;
  error : option string
}.

(** The visualizer's mutable fields, with the build's [cycles_detected]
    list, which the traversals receive by reference. *)
Record visualizer : Type := {
  dependency_graph : list (string * node);
  visited_packages : gset string;
  reverse_dependencies : list (string * list string);
  cycles_detected : list (list string)
}.

Definition fresh_visualizer : visualizer :=
  {| dependency_graph := [];
     visited_packages := ∅;
     reverse_dependencies := [];
     cycles_detected := [] |}.

(** [self.visited_packages.add(package)] *)
Definition mark_visited (package : string) (st : visualizer) : visualizer :=
  {| dependency_graph := dependency_graph st;
     visited_packages := {[package]} ∪ visited_packages st;
     reverse_dependencies := reverse_dependencies st;
     cycles_detected := cycles_detected st |}.

(** [self.dependency_graph[package] = record] *)
Definition store_node (package : string) (record : node) (st : visualizer)
    : visualizer :=
  {| dependency_graph := dict_set (dependency_graph st) package record;
     visited_packages := visited_packages st;
     reverse_dependencies := reverse_dependencies st;
     cycles_detected := cycles_detected st |}.

(** The normalisation loop: drop repeated names, keep first occurrences. *)
Definition normalize_cycle (cycle : list string) : list string :=
  foldl (fun normalized n =>
           if bool_decide (n ∈ normalized) then normalized
           else normalized ++ [n]) [] cycle.

(** [path[path.index(package):]] *)
Fixpoint cycle_suffix (package : string) (path : list string) : list string :=
  match path with
  | [] => []
  | x :: rest =>
      if decide (x = package) then path else cycle_suffix package rest
  end.

(** The body of [if package in self.visited_packages:] up to its
    [return] / [continue]. *)
Definition note_cycle (package : string) (path : list string)
    (st : visualizer) : visualizer :=
  if bool_decide (package ∈ path) then
    let normalized_cycle := normalize_cycle (cycle_suffix package path) in
    if bool_decide (normalized_cycle ∈ cycles_detected st) then st
    else
      {| dependency_graph := dependency_graph st;
         visited_packages := visited_packages st;
         reverse_dependencies := reverse_dependencies st;
         cycles_detected := cycles_detected st ++ [normalized_cycle] |}
  else st.

(** How a traversal ends: normally, or with an exception on the way out;
    either way the visualizer has been mutated up to that point. *)
Inductive outcome : Type :=
| Done (st : visualizer)
| Raised (e : exn) (st : visualizer).

Definition final_state (o : outcome) : visualizer :=
  match o with Done st | Raised _ st => st end.

(** [for x in xs: f(x)], stopping at the first exception. *)
Fixpoint for_each (f : string -> visualizer -> option outcome)
    (xs : list string) (st : visualizer) : option outcome :=
  match xs with
  | [] => Some (Done st)
  | x :: rest =>
      match f x st with
      | Some (Done st') => for_each f rest st'
      | other => other
      end
  end.

(** The message of the [AttributeError] that [dependencies.keys()] raises
    on a value that is not a [dict]. *)
Definition no_keys (value : dependencies_value) : string :=
  "'" +:+ type_name value +:+ "' object has no attribute 'keys'".

(** The depth-first builder of the per-call modes.  The [try] block holds
    the adapter call, the insertion and the recursive calls; its handler
    catches [DependencyError] only.  The record is inserted with whatever
    the adapter returned; on an answer that is not a mapping the loop header
    [dependencies.keys()] then raises an [AttributeError], which the handler
    does not catch. *)
Fixpoint _build_graph_bfs_recursive (w : world) (cfg : config) (fuel : nat)
    (package : string) (path : list string) (st : visualizer)
    : option outcome :=
  match fuel with
  | 0 => None
  | S fuel' =>
      if bool_decide (package ∈ visited_packages st) then
        Some (Done (note_cycle package path st))
      else
        let st1 := mark_visited package st in
        let current_path := path ++ [package] in
        let try_block :=
          match get_direct_dependencies w cfg package with
          | Raise e => Some (Raised e st1)
          | Ok deps =>
              let st2 :=
                store_node package
                  {| dependencies := deps;
                     level := length current_path - 1;
                     error := None |} st1 in
              if is_mapping deps then
                for_each
                  (fun dep_name =>
                     _build_graph_bfs_recursive w cfg fuel' dep_name
                       current_path)
                  (mapping_keys deps) st2
              else Some (Raised (OtherError (no_keys deps)) st2)
          end in
        match try_block with
        | Some (Raised (DependencyError msg) st') =>
            Some (Done (store_node package
                          {| dependencies := Mapping [];
                             level := length current_path - 1;
                             error := Some msg |} st'))
        | other => other
        end
  end.

(** One pass through the body of the [while queue:] loop of the
    breadth-first builder: [item] has just been taken by [popleft]. *)
Definition bfs_iteration (file_graph : list (string * list string))
    (item : string * nat * list string)
    (queue : list (string * nat * list string)) (st : visualizer)
    : list (string * nat * list string) * visualizer :=
  let '(package, lvl, path) := item in
  if bool_decide (package ∈ visited_packages st) then
    (queue, note_cycle package path st)
  else
    let st1 := mark_visited package st in
    let current_path := path ++ [package] in
    match dict_get file_graph package with
    | Some deps =>
        (queue ++ ((fun dep_name => (dep_name, lvl + 1, current_path)) <$> deps),
         store_node package
           {| dependencies := Mapping (star_dict deps); level := lvl;
              error := None |}
           st1)
    | None =>
        (queue,
         store_node package
           {| dependencies := Mapping [];
              level := lvl;
              error := Some ("Пакет " +:+ package +:+ " не найден в графе") |}
           st1)
    end.

Fixpoint bfs_loop (fuel : nat) (file_graph : list (string * list string))
    (queue : list (string * nat * list string)) (st : visualizer)
    : option visualizer :=
  match queue with
  | [] => Some st
  | item :: rest =>
      match fuel with
      | 0 => None
      | S fuel' =>
          let '(queue', st') := bfs_iteration file_graph item rest st in
          bfs_loop fuel' file_graph queue' st'
      end
  end.

Definition _build_graph_from_file_bfs (fuel : nat) (root_package : string)
    (file_graph : list (string * list string)) (st : visualizer)
    : option visualizer :=
  bfs_loop fuel file_graph [(root_package, 0, [])] st.

(** ** Reverse index *)

(** The body of the inner loop of [_build_reverse_dependencies]. *)
Definition add_reverse (package : string)
    (rev : list (string * list string)) (dep : string)
    : list (string * list string) :=
  let rev1 := if dict_has rev dep then rev else dict_set rev dep [] in
  match dict_get rev1 dep with
  | Some bucket =>
      if bool_decide (package ∈ bucket) then rev1
      else dict_set rev1 dep (bucket ++ [package])
  | None => rev1
  end.

(** Every record of the graph holds a mapping under ['dependencies']. *)
Definition all_mappings (graph : list (string * node)) : bool :=
  forallb (fun entry => is_mapping (dependencies entry.2)) graph.

(** The two loops of [_build_reverse_dependencies] over a graph whose
    records hold mappings. *)
Definition reverse_index (graph : list (string * node))
    : list (string * list string) :=
  foldl (fun rev '(package, info) =>
           foldl (add_reverse package) rev (mapping_keys (dependencies info)))
        [] graph.

(** The visualizer with its reverse index rebuilt from its graph. *)
Definition reverse_indexed (st : visualizer) : visualizer :=
  {| dependency_graph := dependency_graph st;
     visited_packages := visited_packages st;
     reverse_dependencies := reverse_index (dependency_graph st);
     cycles_detected := cycles_detected st |}.

(** [_build_reverse_dependencies] on a graph whose records hold mappings,
    which is what a traversal that ended normally leaves.  On a record that
    holds another value [for dep in info['dependencies']] raises a
    [TypeError] or walks the elements of a list or the characters of a
    string: there the model gives no result. *)
Definition _build_reverse_dependencies (st : visualizer)
    : option visualizer :=
  if all_mappings (dependency_graph st) then Some (reverse_indexed st)
  else None.

(** [self.reverse_dependencies.get(package_name, [])] *)
Definition get_reverse_dependencies (st : visualizer) (package : string)
    : list string :=
  default [] (dict_get (reverse_dependencies st) package).

(** ** The build *)

(** The build resets the visualizer, runs the traversal of its mode and,
    when that ends normally, rebuilds the reverse index; an exception of
    the loader or of the traversal leaves the build.  A traversal that ends
    normally has recorded mappings only ([visit_mappings], [bfs_mappings]),
    so the rebuilding then has a result ([build_of_traversal]). *)
Definition build_dependency_graph_bfs (w : world) (cfg : config) (fuel : nat)
    : option outcome :=
  let root_package := package_name cfg in
  let st0 := fresh_visualizer in
  let traversal :=
    match repository_mode cfg with
    | GRAPH_FILE =>
        match _load_graph_from_file w (repository_url cfg) with
        | Raise e => Some (Raised e st0)
        | Ok file_graph =>
            Done <$> _build_graph_from_file_bfs fuel root_package file_graph st0
        end
    | _ => _build_graph_bfs_recursive w cfg fuel root_package [] st0
    end in
  match traversal with
  | Some (Done st) => Done <$> _build_reverse_dependencies st
  | other => other
  end.

(** ** Graph exporter *)

Definition nl : string := String "010"%char EmptyString.
(** the double-quote character *)
Definition dq : string := String "034"%char EmptyString.

Definition graphviz_header (root_package : string) : list string :=
  [ "digraph DependencyGraph {";
    "    rankdir=TB;";
    "    node [shape=box, style=filled, fillcolor=lightblue, fontname=Arial];";
    "    edge [color=darkgreen, fontname=Arial];";
    "    graph [fontname=Arial];";
    "";
    "    label=" +:+ dq +:+ "Граф зависимостей для " +:+ root_package +:+ dq
      +:+ ";";
    "    labelloc=t;";
    "    fontsize=16;";
    "" ].

Definition node_style (root_package package : string) (info : node)
    : string :=
  if bool_decide (package = root_package) then
    "shape=ellipse, style=filled, fillcolor=orange, fontsize=12"
  else
    match error info with
    | Some _ => "style=filled, fillcolor=lightcoral, fontsize=10"
    | None =>
        if truthy (dependencies info) then
          "style=filled, fillcolor=lightblue, fontsize=10"
        else "style=filled, fillcolor=lightgreen, fontsize=10"
    end.

Definition node_declaration (root_package : string)
    (entry : string * node) : string :=
  "    " +:+ dq +:+ entry.1 +:+ dq +:+ " [" +:+
  node_style root_package entry.1 entry.2 +:+ "];".

Definition node_declarations (root_package : string)
    (graph : list (string * node)) : list string :=
  node_declaration root_package <$> graph.

Definition edge_text (package dep : string) : string :=
  dq +:+ package +:+ dq +:+ " -> " +:+ dq +:+ dep +:+ dq.

Definition edge_declaration (package dep : string) : string :=
  "    " +:+ edge_text package dep +:+ ";".

(** The body of the edge loop of [generate_graphviz]: the lines emitted so
    far and the set [edges_added]. *)
Definition add_edge (package : string) (acc : list string * gset string)
    (dep : string) : list string * gset string :=
  let edge := edge_text package dep in
  if bool_decide (edge ∈ acc.2) then acc
  else (acc.1 ++ [edge_declaration package dep], {[edge]} ∪ acc.2).

(** The edge loop of [generate_graphviz] over a graph whose records hold
    mappings. *)
Definition edge_declarations (graph : list (string * node)) : list string :=
  (foldl (fun acc '(package, info) =>
            foldl (add_edge package) acc (mapping_keys (dependencies info)))
         ([], ∅) graph).1.

(** The text of the annotated export.  It is the empty string for an empty
    graph.  For a graph whose records all hold mappings it is the joined
    lines.  For a graph with a record that holds another value (left behind
    by a build that failed on it) the edge loop raises a [TypeError] or
    walks the elements of a list or the characters of a string: there the
    model gives no result. *)
Definition generate_graphviz (cfg : config) (st : visualizer)
    : option string :=
  match dependency_graph st with
  | [] => Some ""
  | graph =>
      if all_mappings graph then
        let root_package := package_name cfg in
        Some (String.concat nl
                (graphviz_header root_package ++
                 node_declarations root_package graph ++
                 [""; "    // Зависимости между пакетами"] ++
                 edge_declarations graph ++
                 ["}"]))
      else None
  end.

(** The edge loop of [generate_simple_graphviz] over a graph whose records
    hold mappings. *)
Definition simple_edges (graph : list (string * node)) : list string :=
  graph ≫= fun '(package, info) =>
    edge_declaration package <$> mapping_keys (dependencies info).

(** The text of the simplified export, with the same three cases. *)
Definition generate_simple_graphviz (cfg : config) (st : visualizer)
    : option string :=
  match dependency_graph st with
  | [] => Some ""
  | graph =>
      if all_mappings graph then
        let root_package := package_name cfg in
        Some (String.concat nl
                ([ "digraph G {";
                   "    rankdir=LR;";
                   "    node [shape=box];";
                   "    label=" +:+ dq +:+ "Dependencies for " +:+
                     root_package +:+ dq +:+ ";";
                   "" ] ++
                 simple_edges graph ++
                 ["}"]))
      else None
  end.

(** ** Vocabulary of the statements *)

(** The packages of [graph], in iteration order, that have [d] among the
    keys of their dependency mapping. *)
Definition dependents (graph : list (string * node)) (d : string)
    : list string :=
  (filter (fun entry => d ∈ mapping_keys (dependencies entry.2)) graph).*1.

(** [rev.get(d, [])] *)
Definition bucket (rev : list (string * list string)) (d : string)
    : list string :=
  default [] (dict_get rev d).

(** What holds of the visualizer whenever a traversal is entered or left:
    the visited set is the key set of the graph, and a record that carries
    an error has no dependencies. *)
Record session_ok (st : visualizer) : Prop := {
  ok_visited :
    ∀ k, k ∈ visited_packages st ↔ k ∈ dict_keys (dependency_graph st);
  ok_nodup : NoDup (dict_keys (dependency_graph st));
  ok_errors :
    ∀ k r, dict_get (dependency_graph st) k = Some r →
           is_Some (error r) → dependencies r = Mapping []
}.

(** Every record of [st] is still the record of [st'], unchanged. *)
Definition records_kept (st st' : visualizer) : Prop :=
  ∀ k r, dict_get (dependency_graph st) k = Some r →
         dict_get (dependency_graph st') k = Some r.

(** Every dependency name of the records in [added] is in [seen]. *)
Definition closed_in (added : list (string * node)) (seen : gset string)
    : Prop :=
  ∀ q r d, (q, r) ∈ added → d ∈ mapping_keys (dependencies r) → d ∈ seen.

(** [st'] is [st] after more traversal: the graph has only been appended
    to, the visited set has only grown, and what was appended is closed. *)
Definition grows (st st' : visualizer) : Prop :=
  visited_packages st ⊆ visited_packages st' ∧
  ∃ added,
    dependency_graph st' = dependency_graph st ++ added ∧
    closed_in added (visited_packages st').

(** The graph of [st'] is the graph of [st] with entries appended. *)
Definition extends (st st' : visualizer) : Prop :=
  ∃ added, dependency_graph st' = dependency_graph st ++ added.

(** What one call of the depth-first builder on [p] guarantees, however it
    ends: [p] is visited, the visualizer is again as a traversal expects
    it, and the graph has only been appended to.  When the call returns
    normally what was appended is closed; an exception that leaves it is
    not a [DependencyError]. *)
Definition visit_post (p : string) (st : visualizer) (o : outcome) : Prop :=
  session_ok (final_state o) ∧
  visited_packages st ⊆ visited_packages (final_state o) ∧
  extends st (final_state o) ∧
  p ∈ visited_packages (final_state o) ∧
  match o with
  | Done st' => grows st st'
  | Raised e _ => ∃ text, e = OtherError text
  end.

(** The names waiting in the queue of the breadth-first builder. *)
Definition queued (queue : list (string * nat * list string)) : list string :=
  (fun item => item.1.1) <$> queue.

(** Loop invariant of the breadth-first builder. *)
Record bfs_ok (file_graph : list (string * list string))
    (queue : list (string * nat * list string)) (st : visualizer) : Prop := {
  bfs_session : session_ok st;
  bfs_pending :
    ∀ q r d, dict_get (dependency_graph st) q = Some r →
             d ∈ mapping_keys (dependencies r) →
             d ∈ visited_packages st ∨ d ∈ queued queue;
  bfs_records :
    ∀ q r, dict_get (dependency_graph st) q = Some r →
           match dict_get file_graph q with
           | Some deps => dependencies r = Mapping (star_dict deps) ∧ error r = None
           | None =>
               dependencies r = Mapping [] ∧
               error r = Some ("Пакет " +:+ q +:+ " не найден в графе")
           end
}.

(** Work left for the breadth-first loop: the queue, and the dependency
    lists of the file's packages not yet visited. *)
Definition unexpanded (file_graph : list (string * list string))
    (seen : gset string) : nat :=
  sum_list ((fun entry =>
               if bool_decide (entry.1 ∈ seen) then 0 else length entry.2)
            <$> file_graph).

Definition bfs_work (file_graph : list (string * list string))
    (queue : list (string * nat * list string)) (st : visualizer) : nat :=
  length queue + unexpanded file_graph (visited_packages st).

(** Every dependency name of every record has a record of its own. *)
Definition graph_closed (graph : list (string * node)) : Prop :=
  ∀ q r d, dict_get graph q = Some r → d ∈ mapping_keys (dependencies r) →
           d ∈ dict_keys graph.

(** What a completed traversal leaves behind for root package [root]. *)
Record build_ok (root : string) (st : visualizer) : Prop := {
  build_session : session_ok st;
  build_closed : graph_closed (dependency_graph st);
  build_root :
    ∃ r, dict_get (dependency_graph st) root = Some r ∧ level r = 0
}.

(** The structural requirement on an adjacency file, in the words of the
    specification: a top-level object whose values are sequences of
    strings. *)
Definition is_string_array (v : json) : bool :=
  match v with
  | JArray items =>
      forallb (fun x => match x with JString _ => true | _ => false end) items
  | _ => false
  end.

Definition structurally_valid (j : json) : bool :=
  match j with
  | JObject members => forallb (fun member => is_string_array member.2) members
  | _ => false
  end.

(** The adapter contract in the words of the specification: the lookup of
    a name fails. *)
Definition lookup_fails (w : world) (cfg : config) (p : string) : Prop :=
  ∃ e, get_direct_dependencies w cfg p = Raise e.

(** The lexicographically first of a list of version strings. *)
Definition lexicographically_first (l : list string) : option string :=
  foldr (fun x acc =>
           match acc with
           | Some y => if String.leb x y then Some x else Some y
           | None => Some x
           end) None l.

(** The fallback of the version selection in the words of the
    specification: "latest" if it exists, else the lexicographically first
    version, else none. *)
Definition spec_fallback_version (info : package_info) : option string :=
  let versions := default [] (info_versions info) in
  let latest := dict_get (default [] (info_dist_tags info)) "latest" in
  if latest_known latest versions then latest
  else lexicographically_first (dict_keys versions).

(** No version of the package has a non-empty dependency mapping: what a
    version holds under "dependencies", if anything, fails the truth test
    of the code. *)
Definition no_version_has_dependencies (info : package_info) : Prop :=
  ∀ v vd, dict_get (default [] (info_versions info)) v = Some vd →
          has_dependencies vd = false.

(** The visualizer after the handler of the depth-first builder has
    recorded the failed lookup of [p], reached along [path]. *)
Definition record_failure (p : string) (path : list string) (msg : string)
    (st : visualizer) : visualizer :=
  store_node p
    {| dependencies := Mapping []; level := length path; error := Some msg |}
    (mark_visited p st).

(** The visualizer after the depth-first builder has recorded the answer
    [value] of the adapter for [p], reached along [path]. *)
Definition record_answer (p : string) (path : list string)
    (value : dependencies_value) (st : visualizer) : visualizer :=
  store_node p
    {| dependencies := value; level := length path; error := None |}
    (mark_visited p st).

(** [e] is the [AttributeError] that [dependencies.keys()] raises on an
    answer of the adapter that is not a mapping. *)
Definition no_keys_failure (w : world) (cfg : config) (e : exn) : Prop :=
  ∃ q value,
    get_direct_dependencies w cfg q = Ok value ∧
    is_mapping value = false ∧
    e = OtherError (no_keys value).

(** The adapter answers every name of [universe] with a mapping or with an
    error. *)
Definition answers_are_mappings (w : world) (cfg : config)
    (universe : list string) : Prop :=
  ∀ q value, q ∈ universe → get_direct_dependencies w cfg q = Ok value →
             is_mapping value = true.

(** Every record of the graph is what the adapter answered for its
    package: the value it returned, or the message it raised. *)
Definition records_from_adapter (w : world) (cfg : config)
    (st : visualizer) : Prop :=
  ∀ q r, dict_get (dependency_graph st) q = Some r →
         match get_direct_dependencies w cfg q with
         | Ok deps => dependencies r = deps ∧ error r = None
         | Raise (DependencyError msg) =>
             dependencies r = Mapping [] ∧ error r = Some msg
         | Raise (GraphError _) | Raise (OtherError _) => False
         end.

(** How many names of [universe] are not in [seen]. *)
Definition unvisited (universe : list string) (seen : gset string) : nat :=
  length (filter (fun x => x ∉ seen) universe).

(** [universe] holds every dependency name the adapter reports for one of
    its members. *)
Definition closed_universe (w : world) (cfg : config)
    (universe : list string) : Prop :=
  ∀ p deps d, p ∈ universe → get_direct_dependencies w cfg p = Ok deps →
              d ∈ mapping_keys deps → d ∈ universe.

(** The greatest of a list of strings in code-unit order. *)
Definition greatest (l : list string) : option string :=
  foldr (fun x acc =>
           match acc with
           | Some y => if String.ltb y x then Some x else Some y
           | None => Some x
           end) None l.

(** ** Sample inputs *)

(** The cyclic adjacency file [{"A":["B"],"B":["C"],"C":["A"]}]. *)
Definition cyclic_file : json :=
  JObject [("A", JArray [JString "B"]);
           ("B", JArray [JString "C"]);
           ("C", JArray [JString "A"])].

(** The sample repository written by [create_complete_test_repository]:
    four packages with manifests; their other dependencies have none. *)
Definition sample_manifests : list (string * manifest) :=
  [("react",
    ManifestObject
      (Some (Mapping [("loose-envify", JString "^1.1.0");
                      ("object-assign", JString "^4.1.1")])));
   ("express",
    ManifestObject
      (Some (Mapping [("accepts", JString "~1.3.8");
                      ("body-parser", JString "1.20.1")])));
   ("webapp",
    ManifestObject
      (Some (Mapping [("react", JString "^18.2.0");
                      ("express", JString "^4.18.2");
                      ("axios", JString "^1.0.0")])));
   ("axios",
    ManifestObject
      (Some (Mapping [("follow-redirects", JString "^1.15.0")])))].

Definition sample_world : world :=
  {| package_json := fun repo_path package =>
       if bool_decide (repo_path = "test_repository") then
         match dict_get sample_manifests package with
         | Some m => Content m
         | None => Missing
         end
       else Missing;
     npm_registry := fun _ => inl "offline";
     graph_json := fun path =>
       if bool_decide (path = "test_graphs/cyclic_graph.json")
       then Content cyclic_file
       else if bool_decide (path = "test_graphs/broken.json")
       then Content (JObject [("A", JString "B")])
       else if bool_decide (path = "test_graphs/dangling.json")
       then Content (JObject [("A", JArray [JString "B"])])
       else Missing |}.

Definition cyclic_config : config :=
  {| package_name := "A";
     repository_url := "test_graphs/cyclic_graph.json";
     repository_mode := GRAPH_FILE |}.

Definition broken_config : config :=
  {| package_name := "A";
     repository_url := "test_graphs/broken.json";
     repository_mode := GRAPH_FILE |}.

(** An adjacency file whose only package depends on a name the file does
    not list. *)
Definition dangling_config : config :=
  {| package_name := "A";
     repository_url := "test_graphs/dangling.json";
     repository_mode := GRAPH_FILE |}.

Definition webapp_config : config :=
  {| package_name := "webapp";
     repository_url := "test_repository";
     repository_mode := TEST |}.

(** A registry answer with two versions, neither with dependencies, and no
    "latest" tag. *)
Definition bare_info : package_info :=
  {| info_versions :=
       Some [("1.0.0", {| version_dependencies := None |});
             ("2.0.0", {| version_dependencies := Some (Mapping []) |})];
     info_dist_tags := None |}.


(** The names that occur in the sample repository. *)
Definition sample_universe : list string :=
  ["webapp"; "react"; "express"; "axios"; "loose-envify"; "object-assign";
   "accepts"; "body-parser"; "follow-redirects"].

(** ** Cycle finder *)

(** [for x in xs: f(x)] threading a state; out of fuel when a call is. *)
Fixpoint fold_calls {S : Type} (f : string -> S -> option S)
    (xs : list string) (s : S) : option S :=
  match xs with
  | [] => Some s
  | x :: rest =>
      match f x s with
      | Some s' => fold_calls f rest s'
      | None => None
      end
  end.

(** The inner function [dfs] of [_find_all_cycles], over a graph whose
    records hold mappings; the state is the pair of the enclosing
    function's [cycles] list and [visited] set.  Each call works on its own
    copy of the path. *)
Fixpoint find_cycles_dfs (graph : list (string * node)) (fuel : nat)
    (n : string) (path : list string) (fs : list (list string) * gset string)
    : option (list (list string) * gset string) :=
  match fuel with
  | 0 => None
  | S fuel' =>
      if bool_decide (n ∈ path) then
        let normalized_cycle := normalize_cycle (cycle_suffix n path) in
        if bool_decide (normalized_cycle ∈ fs.1) then Some fs
        else Some (fs.1 ++ [normalized_cycle], fs.2)
      else if bool_decide (n ∈ fs.2) then Some fs
      else
        let fs1 := (fs.1, {[n]} ∪ fs.2) in
        let path1 := path ++ [n] in
        match dict_get graph n with
        | Some info =>
            fold_calls
              (fun neighbor => find_cycles_dfs graph fuel' neighbor path1)
              (mapping_keys (dependencies info)) fs1
        | None => Some fs1
        end
  end.

(** [_find_all_cycles] on a graph whose records hold mappings.  The outer
    loop reaches every record, so on a graph with a record that holds
    another value it raises a [TypeError] or walks a list or a string:
    there the model gives no result. *)
Definition _find_all_cycles (graph : list (string * node)) (fuel : nat)
    : option (list (list string)) :=
  if all_mappings graph then
    fst <$>
      fold_calls
        (fun n fs =>
           if bool_decide (n ∈ fs.2) then Some fs
           else find_cycles_dfs graph fuel n [] fs)
        (dict_keys graph) ([], ∅)
  else None.

(** ** More vocabulary *)

(** [a] has a record that lists [b] among its dependencies. *)
Definition edge (graph : list (string * node)) (a b : string) : Prop :=
  ∃ r, dict_get graph a = Some r ∧ b ∈ mapping_keys (dependencies r).

(** Each name of [path] depends on the next. *)
Fixpoint chain (graph : list (string * node)) (path : list string) : Prop :=
  match path with
  | a :: rest =>
      match rest with
      | b :: _ => edge graph a b ∧ chain graph rest
      | [] => True
      end
  | [] => True
  end.

(** [c] is a simple cycle of [graph]: distinct names, each depending on the
    next and the last on the first. *)
Definition is_cycle (graph : list (string * node)) (c : list string) : Prop :=
  NoDup c ∧ chain graph c ∧
  ∃ a b, head c = Some a ∧ last c = Some b ∧ edge graph b a.

(** Every cycle the finder has recorded so far is a simple cycle of the
    graph, recorded once. *)
Definition finder_ok (graph : list (string * node))
    (fs : list (list string) * gset string) : Prop :=
  NoDup fs.1 ∧ ∀ c, c ∈ fs.1 → is_cycle graph c.

(** The discovery path [path] with which a builder is handed package [p]:
    distinct visited names starting at the root, each recorded at the level
    of its position and depending on the next, the last one on [p]. *)
Record trail_ok (root : string) (st : visualizer) (path : list string)
    (p : string) : Prop := {
  trail_nodup : NoDup path;
  trail_chain : chain (dependency_graph st) path;
  trail_last : ∀ a, last path = Some a → edge (dependency_graph st) a p;
  trail_levels :
    ∀ i a, path !! i = Some a →
           ∃ r, dict_get (dependency_graph st) a = Some r ∧ level r = i;
  trail_root : path = [] → p = root;
  trail_head : ∀ a, head path = Some a → a = root;
  trail_visited : ∀ a, a ∈ path → a ∈ visited_packages st
}.

(** The shape of the graph and of the cycle list during a build from
    [root]: recorded cycles are simple cycles of the graph, each recorded
    once; the root is at level 0 and every other package one level below a
    package that depends on it. *)
Record tree_ok (root : string) (st : visualizer) : Prop := {
  tree_cycles_nodup : NoDup (cycles_detected st);
  tree_cycles :
    ∀ c, c ∈ cycles_detected st → is_cycle (dependency_graph st) c;
  tree_root :
    ∀ r, dict_get (dependency_graph st) root = Some r → level r = 0;
  tree_parent :
    ∀ q r, dict_get (dependency_graph st) q = Some r → q ≠ root →
           ∃ a ra, dict_get (dependency_graph st) a = Some ra ∧
                   q ∈ mapping_keys (dependencies ra) ∧
                   level r = S (level ra)
}.

(** Every queued item carries a discovery path for its package and the
    length of that path as its level. *)
Definition queue_ok (root : string) (st : visualizer)
    (queue : list (string * nat * list string)) : Prop :=
  ∀ item, item ∈ queue →
          trail_ok root st item.2 item.1.1 ∧ item.1.2 = length item.2.

(** A reverse index with distinct keys and no empty bucket. *)
Definition reverse_ok (rev : list (string * list string)) : Prop :=
  NoDup (dict_keys rev) ∧ ∀ d b, dict_get rev d = Some b → b ≠ [].

(** The first test of [_find_version_with_dependencies]: the "latest" tag
    names a known version that has dependencies. *)
Definition latest_with_dependencies (info : package_info) : bool :=
  let versions := default [] (info_versions info) in
  let latest_version := dict_get (default [] (info_dist_tags info)) "latest" in
  latest_known latest_version versions &&
  match latest_version with
  | Some v => version_has_dependencies versions v
  | None => false
  end.

(** A registry answer whose "latest" version has no dependencies while two
    older versions have some. *)
Definition tagged_info : package_info :=
  {| info_versions :=
       Some [("1.0.0",
              {| version_dependencies := Some (Mapping [("a", JString "^1")]) |});
             ("3.0.0", {| version_dependencies := Some (Mapping []) |});
             ("2.0.0",
              {| version_dependencies :=
                   Some (Mapping [("b", JString "^2")]) |})];
     info_dist_tags := Some [("latest", "3.0.0")] |}.

(** A registry answer whose only version holds [null] under
    "dependencies". *)
Definition null_info : package_info :=
  {| info_versions := Some [("1.0.0", {| version_dependencies := Some Null |})];
     info_dist_tags := None |}.

(** A registry that answers every request with [info]. *)
Definition registry_world (info : package_info) : world :=
  {| package_json := fun _ _ => Missing;
     npm_registry := fun _ => inr info;
     graph_json := fun _ => Missing |}.

Definition registry_config : config :=
  {| package_name := "pkg";
     repository_url := "https://registry.npmjs.org";
     repository_mode := REMOTE |}.

(** A test repository in which "app" depends on "broken" and on "lib", and
    the manifest of "broken" holds [null] under "dependencies". *)
Definition faulty_manifests : list (string * manifest) :=
  [("app",
    ManifestObject
      (Some (Mapping [("broken", JString "^1.0.0");
                      ("lib", JString "^2.0.0")])));
   ("broken", ManifestObject (Some Null));
   ("lib", ManifestObject None)].

Definition faulty_world : world :=
  {| package_json := fun repo_path package =>
       match dict_get faulty_manifests package with
       | Some m => Content m
       | None => Missing
       end;
     npm_registry := fun _ => inl "offline";
     graph_json := fun _ => Missing |}.

Definition faulty_config : config :=
  {| package_name := "app";
     repository_url := "faulty_repository";
     repository_mode := TEST |}.

(** Every name the graph mentions: its keys and its dependency names. *)
Definition graph_names (graph : list (string * node)) : list string :=
  dict_keys graph ++
  (graph ≫= fun entry => mapping_keys (dependencies entry.2)).

(** The JSON text of an adjacency mapping: an object of string arrays. *)
Definition graph_to_json (graph : list (string * list string)) : json :=
  JObject ((fun entry => (entry.1, JArray (JString <$> entry.2))) <$> graph).

(** A graph with the three edges A -> B, B -> C, C -> A and the node D. *)
Definition triangle_graph : list (string * node) :=
  [("A", {| dependencies := Mapping [("B", JString "*")]; level := 0;
            error := None |});
   ("B", {| dependencies := Mapping [("C", JString "*")]; level := 1;
            error := None |});
   ("C", {| dependencies := Mapping [("A", JString "*"); ("D", JString "*")];
            level := 2;
            error := None |})].

(** The levels during the breadth-first loop: the queue holds items of one
    level [l] followed by items of the next level, no record is deeper than
    [l], and every dependency of a record either has a record at most one
    level deeper or waits in the queue at exactly one level deeper. *)
Definition level_ok (queue : list (string * nat * list string))
    (st : visualizer) : Prop :=
  (∃ l q1 q2,
     queue = q1 ++ q2 ∧
     (∀ item, item ∈ q1 → item.1.2 = l) ∧
     (∀ item, item ∈ q2 → item.1.2 = S l) ∧
     ∀ q r, dict_get (dependency_graph st) q = Some r → (level r ≤ l)%nat) ∧
  ∀ a ra d,
    dict_get (dependency_graph st) a = Some ra →
    d ∈ mapping_keys (dependencies ra) →
    (∃ rd, dict_get (dependency_graph st) d = Some rd ∧
           (level rd ≤ S (level ra))%nat) ∨
    (∃ path, (d, S (level ra), path) ∈ queue).

(** A dependency path from [root] to [q]: [path] lists the packages before
    [q], each depending on the next. *)
Definition path_to (graph : list (string * node)) (root : string)
    (path : list string) (q : string) : Prop :=
  chain graph (path ++ [q]) ∧ head (path ++ [q]) = Some root.

(** Membership in a literal list. *)
Ltac in_list :=
  repeat first [apply list_elem_of_here | apply list_elem_of_further].

(** * Properties *)

(** ** Dictionaries *)

Section PyDictFacts.
Context {V : Type}.
Implicit Types (d : list (string * V)) (k : string) (v : V).

Lemma dict_get_None d k : dict_get d k = None ↔ k ∉ dict_keys d.
Proof.
  unfold dict_keys. induction d as [|[k' v'] d IH]; csimpl.
  - split; [intros _; apply not_elem_of_nil | done].
  - rewrite not_elem_of_cons. destruct (decide (k = k')); [|tauto].
    split; [done | tauto].
Qed.

Lemma dict_get_is_Some d k : is_Some (dict_get d k) ↔ k ∈ dict_keys d.
Proof.
  rewrite <- not_eq_None_Some, dict_get_None.
  destruct (decide (k ∈ dict_keys d)); tauto.
Qed.

Lemma dict_has_true d k : dict_has d k = true ↔ k ∈ dict_keys d.
Proof. unfold dict_has. apply bool_decide_eq_true. Qed.

Lemma dict_get_elem_of d k v : dict_get d k = Some v → (k, v) ∈ d.
Proof.
  induction d as [|[k' v'] d IH]; csimpl; [done|].
  destruct (decide (k = k')) as [->|]; intros H.
  - injection H as ->. apply list_elem_of_here.
  - apply list_elem_of_further. auto.
Qed.

Lemma dict_get_of_elem d k v :
  NoDup (dict_keys d) → (k, v) ∈ d → dict_get d k = Some v.
Proof.
  unfold dict_keys. induction d as [|[k' v'] d IH]; csimpl; intros Hnd Hin.
  - by apply elem_of_nil in Hin.
  - apply NoDup_cons in Hnd as [Hk' Hnd].
    apply elem_of_cons in Hin as [Heq | Hin].
    + injection Heq as -> ->. by rewrite decide_True.
    + destruct (decide (k = k')) as [->|]; [|auto].
      exfalso. apply Hk'. apply list_elem_of_fmap. by exists (k', v).
Qed.

Lemma dict_get_set d k k' v :
  dict_get (dict_set d k v) k' =
  if decide (k' = k) then Some v else dict_get d k'.
Proof.
  induction d as [|[k0 v0] d IH]; csimpl.
  - done.
  - destruct (decide (k = k0)) as [->|Hne]; csimpl.
    + destruct (decide (k' = k0)); done.
    + rewrite IH. destruct (decide (k' = k0)) as [->|]; [|done].
      by rewrite decide_False.
Qed.

Lemma dict_set_fresh d k v :
  k ∉ dict_keys d → dict_set d k v = d ++ [(k, v)].
Proof.
  unfold dict_keys. induction d as [|[k0 v0] d IH]; csimpl; [done|].
  rewrite not_elem_of_cons. intros [Hne Hnin].
  rewrite decide_False by done. by rewrite IH.
Qed.

Lemma dict_keys_set d k v :
  dict_keys (dict_set d k v) =
  if decide (k ∈ dict_keys d) then dict_keys d else dict_keys d ++ [k].
Proof.
  unfold dict_keys. induction d as [|[k0 v0] d IH]; csimpl.
  - done.
  - destruct (decide (k = k0)) as [->|Hne]; csimpl.
    + rewrite decide_True; [done | apply list_elem_of_here].
    + rewrite IH. destruct (decide (k ∈ d.*1)) as [Hin|Hnin].
      * rewrite decide_True; [done | by apply list_elem_of_further].
      * rewrite decide_False; [done|].
        rewrite not_elem_of_cons. done.
Qed.

Lemma dict_get_app_l d d' k v :
  dict_get d k = Some v → dict_get (d ++ d') k = Some v.
Proof.
  induction d as [|[k0 v0] d IH]; csimpl; [done|].
  destruct (decide (k = k0)); auto.
Qed.

Lemma dict_get_app_r d d' k :
  k ∉ dict_keys d → dict_get (d ++ d') k = dict_get d' k.
Proof.
  unfold dict_keys. induction d as [|[k0 v0] d IH]; csimpl; [done|].
  rewrite not_elem_of_cons. intros [Hne Hnin].
  rewrite decide_False by done. auto.
Qed.
End PyDictFacts.

(** ** Reverse index *)

Lemma bucket_add_reverse p rev dep d :
  bucket (add_reverse p rev dep) d =
  if decide (d = dep) then
    if decide (p ∈ bucket rev d) then bucket rev d else bucket rev d ++ [p]
  else bucket rev d.
Proof.
  unfold add_reverse, bucket.
  destruct (dict_has rev dep) eqn:Hhas.
  - apply dict_has_true, dict_get_is_Some in Hhas as [b Hb]. rewrite Hb.
    destruct (decide (d = dep)) as [->|Hne].
    + rewrite Hb. simpl. case_bool_decide.
      * rewrite decide_True by done. by rewrite Hb.
      * rewrite decide_False by done. rewrite dict_get_set.
        by rewrite decide_True.
    + case_bool_decide; [done|]. rewrite dict_get_set.
      by rewrite decide_False.
  - assert (dict_get rev dep = None) as Hnone.
    { apply dict_get_None. intros Hin. apply dict_has_true in Hin. congruence. }
    rewrite dict_get_set, decide_True by done.
    rewrite bool_decide_eq_false_2 by apply not_elem_of_nil.
    rewrite !dict_get_set.
    destruct (decide (d = dep)) as [->|Hne]; [|done].
    rewrite Hnone. done.
Qed.

Lemma bucket_add_all p ks : ∀ rev d,
  bucket (foldl (add_reverse p) rev ks) d =
  if decide (d ∈ ks) then
    if decide (p ∈ bucket rev d) then bucket rev d else bucket rev d ++ [p]
  else bucket rev d.
Proof.
  induction ks as [|k ks IH]; intros rev d; cbn [foldl].
  - rewrite decide_False; [done | apply not_elem_of_nil].
  - rewrite IH, !bucket_add_reverse.
    destruct (decide (d = k)) as [->|Hne].
    + rewrite (decide_True (P := k ∈ k :: ks)) by apply list_elem_of_here.
      destruct (decide (p ∈ bucket rev k)) as [Hin|Hnin].
      * destruct (decide (k ∈ ks)); [by rewrite decide_True | done].
      * destruct (decide (k ∈ ks)); [|done].
        rewrite decide_True; [done|].
        apply elem_of_app; right; apply list_elem_of_here.
    + destruct (decide (d ∈ ks)) as [Hin|Hnin].
      * rewrite (decide_True (P := d ∈ k :: ks)); [done|].
        by apply list_elem_of_further.
      * rewrite (decide_False (P := d ∈ k :: ks)); [done|].
        rewrite not_elem_of_cons. done.
Qed.

Lemma dependents_app g1 g2 d :
  dependents (g1 ++ g2) d = dependents g1 d ++ dependents g2 d.
Proof. unfold dependents. by rewrite filter_app, fmap_app. Qed.

Lemma dependents_subseteq g d p : p ∈ dependents g d → p ∈ dict_keys g.
Proof.
  unfold dependents, dict_keys. intros Hin.
  apply list_elem_of_fmap in Hin as [e [-> He]].
  apply list_elem_of_filter in He as [_ He].
  apply list_elem_of_fmap. by exists e.
Qed.

Lemma reverse_index_from g2 : ∀ g1 rev,
  NoDup (dict_keys (g1 ++ g2)) →
  (∀ d, bucket rev d = dependents g1 d) →
  ∀ d,
    bucket
      (foldl (fun rev '(package, info) =>
                foldl (add_reverse package) rev (mapping_keys (dependencies info)))
             rev g2) d
    = dependents (g1 ++ g2) d.
Proof.
  induction g2 as [|[p info] g2 IH]; intros g1 rev Hnd Hrev d; simpl.
  - by rewrite app_nil_r.
  - replace (g1 ++ (p, info) :: g2) with ((g1 ++ [(p, info)]) ++ g2) in *
      by (by rewrite <- app_assoc).
    apply IH; [done|]. clear d. intros d.
    rewrite bucket_add_all, dependents_app, !Hrev.
    assert (p ∉ dependents g1 d) as Hp.
    { intros Hin. apply dependents_subseteq in Hin.
      unfold dict_keys in Hnd. rewrite !fmap_app in Hnd.
      apply NoDup_app in Hnd as [Hnd _].
      apply NoDup_app in Hnd as (_ & Hdisj & _).
      apply (Hdisj p Hin). apply list_elem_of_here. }
    rewrite (decide_False (P := p ∈ dependents g1 d)) by done.
    assert (dependents [(p, info)] d =
            if decide (d ∈ mapping_keys (dependencies info)) then [p] else [])
      as ->.
    { unfold dependents. rewrite filter_cons, filter_nil. simpl.
      by destruct (decide (d ∈ mapping_keys (dependencies info))). }
    destruct (decide (d ∈ mapping_keys (dependencies info))).
    + done.
    + by rewrite app_nil_r.
Qed.

Lemma reverse_index_bucket graph d :
  NoDup (dict_keys graph) →
  bucket (reverse_index graph) d = dependents graph d.
Proof.
  intros Hnd. unfold reverse_index.
  apply (reverse_index_from graph [] []); [done|].
  intros d'. done.
Qed.

Lemma dependents_NoDup graph d :
  NoDup (dict_keys graph) → NoDup (dependents graph d).
Proof.
  unfold dependents, dict_keys. induction graph as [|[p info] g IH]; csimpl.
  - intros _. constructor.
  - intros Hnd. apply NoDup_cons in Hnd as [Hp Hnd].
    rewrite filter_cons. simpl. case_decide; simpl; [|auto].
    apply NoDup_cons. split; [|auto].
    intros Hin. apply Hp. apply list_elem_of_fmap in Hin as [e [-> He]].
    apply list_elem_of_filter in He as [_ He].
    apply list_elem_of_fmap. by exists e.
Qed.

Lemma elem_of_dependents graph d p :
  NoDup (dict_keys graph) →
  p ∈ dependents graph d ↔
  ∃ info, dict_get graph p = Some info ∧ d ∈ mapping_keys (dependencies info).
Proof.
  intros Hnd. unfold dependents. rewrite list_elem_of_fmap. split.
  - intros [[p' info] [-> He]]. apply list_elem_of_filter in He as [Hd He].
    exists info. split; [by apply dict_get_of_elem | done].
  - intros [info [Hget Hd]]. exists (p, info). split; [done|].
    apply list_elem_of_filter. split; [done | by apply dict_get_elem_of].
Qed.

(** ** Source adapter *)

Lemma get_direct_dependencies_raises w cfg p e :
  get_direct_dependencies w cfg p = Raise e → ∃ msg, e = DependencyError msg.
Proof.
  unfold get_direct_dependencies, as_dependency_error.
  intros H. repeat case_match; simplify_eq; eauto.
Qed.

(** ** The visualizer between traversal steps *)

Lemma session_ok_fresh : session_ok fresh_visualizer.
Proof.
  split; simpl.
  - intros k. split; intros H.
    + by apply not_elem_of_empty in H.
    + by apply elem_of_nil in H.
  - constructor.
  - done.
Qed.

Lemma note_cycle_graph p path st :
  dependency_graph (note_cycle p path st) = dependency_graph st.
Proof. unfold note_cycle. by repeat case_bool_decide. Qed.

Lemma note_cycle_visited p path st :
  visited_packages (note_cycle p path st) = visited_packages st.
Proof. unfold note_cycle. by repeat case_bool_decide. Qed.

Lemma session_ok_note_cycle p path st :
  session_ok st → session_ok (note_cycle p path st).
Proof.
  intros [Hv Hn He].
  split; rewrite ?note_cycle_graph, ?note_cycle_visited; done.
Qed.

Lemma store_fresh_graph p r st :
  session_ok st → p ∉ visited_packages st →
  dependency_graph (store_node p r (mark_visited p st)) =
  dependency_graph st ++ [(p, r)].
Proof.
  intros [Hv _ _] Hp. simpl. apply dict_set_fresh. by rewrite <- Hv.
Qed.

Lemma session_ok_store p r st :
  session_ok st → p ∉ visited_packages st →
  (is_Some (error r) → dependencies r = Mapping []) →
  session_ok (store_node p r (mark_visited p st)).
Proof.
  intros Hok Hp Hr. pose proof (store_fresh_graph p r st Hok Hp) as Hg.
  destruct Hok as [Hv Hn He].
  assert (p ∉ dict_keys (dependency_graph st)) as Hp' by (by rewrite <- Hv).
  split; rewrite Hg.
  - intros k. simpl. unfold dict_keys. rewrite fmap_app, elem_of_app.
    rewrite elem_of_union, elem_of_singleton, Hv. simpl.
    rewrite list_elem_of_singleton. unfold dict_keys. tauto.
  - unfold dict_keys in *. rewrite fmap_app. simpl. apply NoDup_app.
    split_and!; [done | | apply NoDup_singleton].
    intros k Hk Hk'. apply list_elem_of_singleton in Hk' as ->. done.
  - intros k r' Hget Herr.
    destruct (dict_get (dependency_graph st) k) as [r0|] eqn:Hk.
    + rewrite (dict_get_app_l _ _ _ _ Hk) in Hget. injection Hget as <-.
      eauto.
    + apply dict_get_None in Hk. rewrite dict_get_app_r in Hget by done.
      simpl in Hget. case_decide; [|done]. injection Hget as <-. auto.
Qed.

Lemma grows_refl st : grows st st.
Proof.
  split; [done|]. exists []. split; [by rewrite app_nil_r|].
  intros q r d Hin. by apply elem_of_nil in Hin.
Qed.

Lemma closed_in_mono added (s1 s2 : gset string) :
  s1 ⊆ s2 → closed_in added s1 → closed_in added s2.
Proof. intros Hsub Hc q r d Hin Hd. apply Hsub. eauto. Qed.

Lemma closed_in_app a1 a2 (s : gset string) :
  closed_in a1 s → closed_in a2 s → closed_in (a1 ++ a2) s.
Proof.
  intros H1 H2 q r d Hin Hd. apply elem_of_app in Hin as [Hin|Hin]; eauto.
Qed.

Lemma grows_trans st1 st2 st3 : grows st1 st2 → grows st2 st3 → grows st1 st3.
Proof.
  intros [Hs1 (a1 & Hg1 & Hc1)] [Hs2 (a2 & Hg2 & Hc2)].
  split; [by transitivity (visited_packages st2)|]. exists (a1 ++ a2). split.
  - by rewrite Hg2, Hg1, app_assoc.
  - apply closed_in_app; [|done]. by apply (closed_in_mono _ _ _ Hs2).
Qed.

Lemma grows_records_kept st st' : grows st st' → records_kept st st'.
Proof.
  intros [_ (added & Hg & _)] k r Hget. rewrite Hg. by apply dict_get_app_l.
Qed.

Lemma extends_refl st : extends st st.
Proof. exists []. by rewrite app_nil_r. Qed.

Lemma extends_trans st1 st2 st3 :
  extends st1 st2 → extends st2 st3 → extends st1 st3.
Proof.
  intros [a1 H1] [a2 H2]. exists (a1 ++ a2). by rewrite H2, H1, app_assoc.
Qed.

Lemma extends_records_kept st st' : extends st st' → records_kept st st'.
Proof. intros [added Hg] k r Hget. rewrite Hg. by apply dict_get_app_l. Qed.

(** ** Depth-first builder *)

Lemma all_mappings_set graph p r :
  all_mappings graph = true → is_mapping (dependencies r) = true →
  all_mappings (dict_set graph p r) = true.
Proof.
  unfold all_mappings. intros Hg Hr.
  induction graph as [|[k v] graph IH]; csimpl.
  - by rewrite Hr.
  - simpl in Hg. apply andb_prop in Hg as [Hv Hrest].
    case_decide; simpl.
    + by rewrite Hr, Hrest.
    + by rewrite Hv, IH.
Qed.

Lemma all_mappings_get graph p r :
  all_mappings graph = true → dict_get graph p = Some r →
  is_mapping (dependencies r) = true.
Proof.
  unfold all_mappings. rewrite forallb_forall. intros Hg Hr.
  apply dict_get_elem_of, list_elem_of_In in Hr. exact (Hg (p, r) Hr).
Qed.

Lemma all_mappings_of_get graph :
  NoDup (dict_keys graph) →
  (∀ p r, dict_get graph p = Some r → is_mapping (dependencies r) = true) →
  all_mappings graph = true.
Proof.
  intros Hnd Hall. unfold all_mappings. apply forallb_forall.
  intros [p r] Hin. apply (Hall p r), dict_get_of_elem; [done|].
  by apply list_elem_of_In.
Qed.

Section DepthFirst.
Variables (w : world) (cfg : config).

Lemma for_each_post (f : string → visualizer → option outcome) :
  (∀ x st o, session_ok st → f x st = Some o → visit_post x st o) →
  ∀ xs st o,
    session_ok st → for_each f xs st = Some o →
    session_ok (final_state o) ∧
    visited_packages st ⊆ visited_packages (final_state o) ∧
    extends st (final_state o) ∧
    match o with
    | Done st' => grows st st' ∧ ∀ x, x ∈ xs → x ∈ visited_packages st'
    | Raised e _ => ∃ text, e = OtherError text
    end.
Proof.
  intros Hf. induction xs as [|x xs IH]; intros st o Hok; simpl.
  - intros [= <-]. simpl.
    split_and!; [done | done | apply extends_refl | apply grows_refl |].
    intros x Hx. by apply elem_of_nil in Hx.
  - destruct (f x st) as [o1|] eqn:Hfx; [|done].
    destruct (Hf x st o1 Hok Hfx) as (Hok1 & Hsub1 & Hext1 & Hx1 & Hend1).
    destruct o1 as [st1|e1 s1]; simpl in Hok1, Hsub1, Hext1, Hx1.
    + intros Hrest.
      destruct (IH st1 o Hok1 Hrest) as (Hok' & Hsub' & Hext' & Hend').
      split_and!;
        [done | by transitivity (visited_packages st1)
        | by eapply extends_trans |].
      destruct o as [st'|e s]; [|done].
      destruct Hend' as [Hg' Hxs]. split; [by eapply grows_trans|].
      intros y Hy. apply elem_of_cons in Hy as [->|Hy]; [|auto].
      by apply Hsub'.
    + intros [= <-]. done.
Qed.

Lemma visit_spec fuel : ∀ p path st o,
  session_ok st →
  _build_graph_bfs_recursive w cfg fuel p path st = Some o →
  visit_post p st o ∧
  (p ∉ visited_packages st →
   ∃ r, dict_get (dependency_graph (final_state o)) p = Some r ∧
        level r = length path).
Proof.
  induction fuel as [|fuel IH]; intros p path st o Hok; simpl; [done|].
  case_bool_decide as Hvis.
  - intros [= <-]. split; [|done]. unfold visit_post. simpl.
    rewrite note_cycle_visited.
    split_and!; [by apply session_ok_note_cycle | done | | done |].
    + exists []. by rewrite note_cycle_graph, app_nil_r.
    + split; rewrite ?note_cycle_visited, ?note_cycle_graph; [done|].
      exists []. split; [by rewrite app_nil_r|].
      intros q r d Hin. by apply elem_of_nil in Hin.
  - assert (length (path ++ [p]) - 1 = length path) as Hlen.
    { rewrite length_app. simpl. lia. }
    rewrite Hlen.
    assert (∀ rec,
              visited_packages st ⊆
                visited_packages (store_node p rec (mark_visited p st)) ∧
              p ∈ visited_packages (store_node p rec (mark_visited p st)) ∧
              dict_get (dependency_graph
                          (store_node p rec (mark_visited p st))) p
                = Some rec) as Hstore.
    { intros rec. split_and!.
      - intros k Hk. simpl. apply elem_of_union. by right.
      - simpl. apply elem_of_union. left. by apply elem_of_singleton.
      - cbn. by rewrite dict_get_set, decide_True. }
    destruct (get_direct_dependencies w cfg p) as [deps|e] eqn:Hfetch.
    + set (rec := {| dependencies := deps; level := length path;
                     error := None |}).
      destruct (Hstore rec) as (Hsub2 & Hp2 & Hrec2).
      pose proof (store_fresh_graph p rec st Hok Hvis) as Hg2.
      set (st2 := store_node p rec (mark_visited p st)) in *.
      assert (session_ok st2) as Hok2.
      { apply session_ok_store; [done | done |]. simpl. by intros [? ?]. }
      destruct (is_mapping deps) eqn:Hmap.
      * destruct (for_each _ (mapping_keys deps) st2) as [o'|] eqn:Hloop;
          [|done].
        destruct (for_each_post _ (fun x s o0 Hs Hx =>
                    proj1 (IH x (path ++ [p]) s o0 Hs Hx))
                    _ _ _ Hok2 Hloop)
          as (Hok' & Hsub' & [added' Hext'] & Hend').
        assert (dict_get (dependency_graph (final_state o')) p = Some rec)
          as Hrec'.
        { rewrite Hext'. by apply dict_get_app_l. }
        destruct o' as [st'|e' s']; cbn [final_state] in Hok', Hsub', Hext', Hrec'.
        -- destruct Hend' as [[_ (added & Hg' & Hcl)] Hdeps].
           intros [= <-]. split; [|intros _; by exists rec].
           unfold visit_post. cbn [final_state].
           split_and!;
             [done | by transitivity (visited_packages st2) | | by apply Hsub'
             |].
           ++ exists ((p, rec) :: added). by rewrite Hg', Hg2, <- app_assoc.
           ++ split; [by transitivity (visited_packages st2)|].
              exists ((p, rec) :: added). split.
              ** by rewrite Hg', Hg2, <- app_assoc.
              ** intros q r d Hin Hd. apply elem_of_cons in Hin as [Heq|Hin].
                 --- injection Heq as -> ->. by apply Hdeps.
                 --- eauto.
        -- destruct Hend' as [text ->].
           intros [= <-]. split; [|intros _; by exists rec].
           unfold visit_post. cbn [final_state].
           split_and!;
             [done | by transitivity (visited_packages st2) | | by apply Hsub'
             | by exists text].
           exists ((p, rec) :: added'). by rewrite Hext', Hg2, <- app_assoc.
      * intros [= <-]. split; [|intros _; by exists rec].
        unfold visit_post. cbn [final_state].
        split_and!; [done | done | by exists [(p, rec)] | done | eauto].
    + destruct (get_direct_dependencies_raises _ _ _ _ Hfetch) as [msg ->].
      intros [= <-]. simpl.
      set (rec := {| dependencies := Mapping []; level := length path;
                     error := Some msg |}).
      destruct (Hstore rec) as (Hsub2 & Hp2 & Hrec2).
      pose proof (store_fresh_graph p rec st Hok Hvis) as Hg2.
      split; [|intros _; by exists rec].
      unfold visit_post. simpl.
      split_and!;
        [by apply session_ok_store | done | by exists [(p, rec)] | done |].
      split; [done|]. exists [(p, rec)]. split; [done|].
      intros q r d Hin Hd. apply list_elem_of_singleton in Hin.
      injection Hin as -> ->. simpl in Hd. by apply elem_of_nil in Hd.
Qed.

Lemma for_each_raises (P : exn → Prop)
    (f : string → visualizer → option outcome) :
  (∀ x st e s, f x st = Some (Raised e s) → P e) →
  ∀ xs st e s, for_each f xs st = Some (Raised e s) → P e.
Proof.
  intros Hf. induction xs as [|x xs IH]; intros st e s; simpl; [done|].
  destruct (f x st) as [[st1|e1 s1]|] eqn:Hfx; [apply IH | | done].
  intros [= <- <-]. by apply (Hf x st e1 s1).
Qed.

(** The only exception that leaves a call of the builder is the
    [AttributeError] on an answer that is not a mapping. *)
Lemma visit_raises fuel : ∀ p path st e s,
  _build_graph_bfs_recursive w cfg fuel p path st = Some (Raised e s) →
  no_keys_failure w cfg e.
Proof.
  induction fuel as [|fuel IH]; intros p path st e s; simpl; [done|].
  case_bool_decide; [done|].
  destruct (get_direct_dependencies w cfg p) as [deps|e0] eqn:Hfetch.
  - destruct (is_mapping deps) eqn:Hmap.
    + match goal with |- context [for_each ?f ?xs ?s0] =>
        destruct (for_each f xs s0) as [[st1|e1 s1]|] eqn:Hloop;
          [done | | done];
        destruct (for_each_raises _ f (fun x => IH x _) _ _ _ _ Hloop)
          as (q & value & Hq & Hvalue & ->)
      end.
      intros [= <- <-]. by exists q, value.
    + intros [= <- <-]. by exists p, deps.
  - by destruct (get_direct_dependencies_raises _ _ _ _ Hfetch) as [msg ->].
Qed.

(** One call of the builder, by cases. *)
Lemma visit_unfold fuel p path st :
  _build_graph_bfs_recursive w cfg (S fuel) p path st =
  if bool_decide (p ∈ visited_packages st) then
    Some (Done (note_cycle p path st))
  else
    match get_direct_dependencies w cfg p with
    | Ok value =>
        if is_mapping value then
          for_each
            (fun dep_name =>
               _build_graph_bfs_recursive w cfg fuel dep_name (path ++ [p]))
            (mapping_keys value) (record_answer p path value st)
        else
          Some (Raised (OtherError (no_keys value))
                  (record_answer p path value st))
    | Raise (DependencyError msg) =>
        Some (Done (record_failure p path msg st))
    | Raise e => Some (Raised e (mark_visited p st))
    end.
Proof.
  simpl. case_bool_decide; [done|].
  assert (length (path ++ [p]) - 1 = length path) as ->.
  { rewrite length_app. simpl. lia. }
  unfold record_answer, record_failure.
  destruct (get_direct_dependencies w cfg p) as [value|[msg|msg|msg]];
    try done.
  destruct (is_mapping value); [|done].
  match goal with |- context [for_each ?f ?xs ?s0] =>
    destruct (for_each f xs s0) as [[st1|e1 s1]|] eqn:Hloop; try done;
    destruct (for_each_raises _ f (fun x => visit_raises fuel x _)
                _ _ _ _ Hloop) as (q & value' & _ & _ & ->)
  end.
  done.
Qed.

(** An invariant of the visualizer that every normally ending call keeps
    (given that it held when the answer was recorded) holds after a loop of
    calls that ended normally. *)
Lemma for_each_done (I : visualizer → Prop)
    (f : string → visualizer → option outcome) :
  (∀ x st st', I st → f x st = Some (Done st') → I st') →
  ∀ xs st st', I st → for_each f xs st = Some (Done st') → I st'.
Proof.
  intros Hf. induction xs as [|x xs IH]; intros st st' Hst; simpl.
  - by intros [= <-].
  - destruct (f x st) as [[st1|e1 s1]|] eqn:Hfx; [|done..].
    apply IH. by apply (Hf x st).
Qed.

(** A traversal that ends normally has recorded mappings only. *)
Lemma visit_mappings fuel : ∀ p path st st',
  all_mappings (dependency_graph st) = true →
  _build_graph_bfs_recursive w cfg fuel p path st = Some (Done st') →
  all_mappings (dependency_graph st') = true.
Proof.
  induction fuel as [|fuel IH]; intros p path st st' Hst; [done|].
  rewrite visit_unfold. case_bool_decide.
  - intros [= <-]. by rewrite note_cycle_graph.
  - destruct (get_direct_dependencies w cfg p) as [value|[msg|msg|msg]];
      [|intros [= <-]; by apply all_mappings_set|done..].
    destruct (is_mapping value) eqn:Hmap; [|done].
    apply (for_each_done (fun s => all_mappings (dependency_graph s) = true)).
    + intros x s s'. apply IH.
    + by apply all_mappings_set.
Qed.
End DepthFirst.

(** ** Breadth-first builder *)

Lemma star_dict_keys_from deps : ∀ (acc : list (string * json)) d,
  d ∈ dict_keys (foldl (fun m dep => dict_set m dep (JString "*")) acc deps) ↔
  d ∈ dict_keys acc ∨ d ∈ deps.
Proof.
  induction deps as [|x deps IH]; intros acc d; cbn [foldl].
  - rewrite elem_of_nil. tauto.
  - rewrite IH, dict_keys_set, elem_of_cons.
    destruct (decide (x ∈ dict_keys acc)) as [Hx|Hx].
    + split; [tauto|]. intros [H|[->|H]]; tauto.
    + rewrite elem_of_app, list_elem_of_singleton. tauto.
Qed.

Lemma star_dict_keys deps d : d ∈ dict_keys (star_dict deps) ↔ d ∈ deps.
Proof.
  unfold star_dict. rewrite star_dict_keys_from.
  unfold dict_keys. simpl. rewrite elem_of_nil. tauto.
Qed.

Lemma bfs_iteration_spec fg item rest st queue' st' :
  bfs_ok fg (item :: rest) st →
  bfs_iteration fg item rest st = (queue', st') →
  bfs_ok fg queue' st' ∧ extends st st' ∧
  item.1.1 ∈ visited_packages st'.
Proof.
  destruct item as [[p lvl] path]. intros [Hok Hpend Hrec]. unfold bfs_iteration.
  case_bool_decide as Hvis.
  - intros [= <- <-]. split_and!.
    + split; rewrite ?note_cycle_graph, ?note_cycle_visited.
      * by apply session_ok_note_cycle.
      * intros q r d Hq Hd. destruct (Hpend q r d Hq Hd) as [H|H]; [by left|].
        unfold queued in H. rewrite fmap_cons in H. simpl in H.
        apply elem_of_cons in H as [->|H]; [by left | by right].
      * done.
    + exists []. by rewrite note_cycle_graph, app_nil_r.
    + by rewrite note_cycle_visited.
  - assert (p ∉ dict_keys (dependency_graph st)) as Hp.
    { destruct Hok as [Hv _ _]. by rewrite <- Hv. }
    assert (∀ r q r', dict_get (dependency_graph st ++ [(p, r)]) q = Some r' →
              dict_get (dependency_graph st) q = Some r' ∨ (q = p ∧ r' = r))
      as Hsplit.
    { intros r q r' Hget.
      destruct (dict_get (dependency_graph st) q) as [r0|] eqn:Hq.
      - rewrite (dict_get_app_l _ _ _ _ Hq) in Hget. by left.
      - apply dict_get_None in Hq. rewrite dict_get_app_r in Hget by done.
        simpl in Hget. case_decide; [|done]. injection Hget as <-. by right. }
    destruct (dict_get fg p) as [deps|] eqn:Hfg; intros [= <- <-].
    + set (rec := {| dependencies := Mapping (star_dict deps); level := lvl;
                     error := None |}).
      pose proof (store_fresh_graph p rec st Hok Hvis) as Hg.
      split_and!.
      * split.
        -- apply session_ok_store; [done | done |]. simpl. by intros [? ?].
        -- rewrite Hg. intros q r d Hq Hd.
           assert (d ∈ queued (rest ++
                     ((fun dep_name => (dep_name, lvl + 1, path ++ [p]))
                        <$> deps)) ↔ d ∈ queued rest ∨ d ∈ deps) as Hqueue.
           { unfold queued. rewrite fmap_app, elem_of_app, <- list_fmap_compose.
             unfold compose. simpl. by rewrite list_fmap_id. }
           rewrite Hqueue. simpl. rewrite elem_of_union, elem_of_singleton.
           destruct (Hsplit _ _ _ Hq) as [Hq'|[-> ->]].
           ++ destruct (Hpend q r d Hq' Hd) as [H|H]; [tauto|].
              unfold queued in H. rewrite fmap_cons in H. simpl in H.
              apply elem_of_cons in H as [->|H]; tauto.
           ++ unfold rec in Hd. simpl in Hd. rewrite star_dict_keys in Hd.
              tauto.
        -- rewrite Hg. intros q r Hq.
           destruct (Hsplit _ _ _ Hq) as [Hq'|[-> ->]]; [by apply Hrec|].
           by rewrite Hfg.
      * eexists. exact Hg.
      * simpl. apply elem_of_union. left. by apply elem_of_singleton.
    + set (rec := {| dependencies := Mapping []; level := lvl;
                     error := Some ("Пакет " +:+ p +:+ " не найден в графе") |}).
      pose proof (store_fresh_graph p rec st Hok Hvis) as Hg.
      split_and!.
      * split.
        -- by apply session_ok_store.
        -- rewrite Hg. intros q r d Hq Hd. simpl.
           rewrite elem_of_union, elem_of_singleton.
           destruct (Hsplit _ _ _ Hq) as [Hq'|[-> ->]].
           ++ destruct (Hpend q r d Hq' Hd) as [H|H]; [tauto|].
              unfold queued in H. rewrite fmap_cons in H. simpl in H.
              apply elem_of_cons in H as [->|H]; tauto.
           ++ unfold rec in Hd. simpl in Hd. by apply elem_of_nil in Hd.
        -- rewrite Hg. intros q r Hq.
           destruct (Hsplit _ _ _ Hq) as [Hq'|[-> ->]]; [by apply Hrec|].
           by rewrite Hfg.
      * eexists. exact Hg.
      * simpl. apply elem_of_union. left. by apply elem_of_singleton.
Qed.

Lemma bfs_loop_spec fg fuel : ∀ queue st st',
  bfs_ok fg queue st →
  bfs_loop fuel fg queue st = Some st' →
  bfs_ok fg [] st' ∧ extends st st'.
Proof.
  induction fuel as [|fuel IH]; intros queue st st' Hok;
    destruct queue as [|item rest]; simpl.
  - intros [= <-]. split; [done | apply extends_refl].
  - done.
  - intros [= <-]. split; [done | apply extends_refl].
  - destruct (bfs_iteration fg item rest st) as [queue1 st1] eqn:Hit.
    destruct (bfs_iteration_spec _ _ _ _ _ _ Hok Hit) as (Hok1 & Hext & _).
    intros Hloop. destruct (IH _ _ _ Hok1 Hloop) as [Hok' Hext'].
    split; [done | by eapply extends_trans].
Qed.

Lemma unexpanded_visit fg p (seen : gset string) :
  (unexpanded fg ({[p]} ∪ seen) ≤ unexpanded fg seen)%nat.
Proof.
  unfold unexpanded. induction fg as [|[q deps] fg IH]; csimpl; [done|].
  repeat case_bool_decide; try lia.
  exfalso. set_solver.
Qed.

Lemma unexpanded_expand fg p deps (seen : gset string) :
  p ∉ seen → dict_get fg p = Some deps →
  (unexpanded fg ({[p]} ∪ seen) + length deps ≤ unexpanded fg seen)%nat.
Proof.
  intros Hp. unfold unexpanded.
  induction fg as [|[q ds] fg IH]; csimpl; [done|].
  case_decide as Hq.
  - subst q. intros [= ->].
    pose proof (unexpanded_visit fg p seen) as Hle. unfold unexpanded in Hle.
    rewrite bool_decide_eq_true_2 by set_solver.
    rewrite bool_decide_eq_false_2 by done. lia.
  - intros Hget. specialize (IH Hget).
    repeat case_bool_decide; try lia.
    exfalso. set_solver.
Qed.

Lemma bfs_iteration_work fg item rest st queue' st' :
  bfs_iteration fg item rest st = (queue', st') →
  (bfs_work fg queue' st' < bfs_work fg (item :: rest) st)%nat.
Proof.
  destruct item as [[p lvl] path]. unfold bfs_iteration, bfs_work.
  case_bool_decide as Hvis.
  - intros [= <- <-]. rewrite note_cycle_visited. simpl. lia.
  - destruct (dict_get fg p) as [deps|] eqn:Hfg; intros [= <- <-]; simpl.
    + pose proof (unexpanded_expand fg p deps _ Hvis Hfg).
      rewrite length_app, length_fmap. lia.
    + pose proof (unexpanded_visit fg p (visited_packages st)). lia.
Qed.

Lemma bfs_loop_total fg fuel : ∀ queue st,
  (bfs_work fg queue st ≤ fuel)%nat → is_Some (bfs_loop fuel fg queue st).
Proof.
  induction fuel as [|fuel IH]; intros queue st Hwork;
    destruct queue as [|item rest]; simpl; eauto.
  - unfold bfs_work in Hwork. simpl in Hwork. lia.
  - destruct (bfs_iteration fg item rest st) as [queue1 st1] eqn:Hit.
    apply IH. pose proof (bfs_iteration_work _ _ _ _ _ _ Hit). lia.
Qed.

(** ** The build *)

Lemma bfs_ok_initial fg root : bfs_ok fg [(root, 0, [])] fresh_visualizer.
Proof. split; [apply session_ok_fresh | done | done]. Qed.

Lemma bfs_closed fg st : bfs_ok fg [] st → graph_closed (dependency_graph st).
Proof.
  intros [[Hv _ _] Hpend _] q r d Hq Hd.
  destruct (Hpend q r d Hq Hd) as [H|H]; [by apply Hv|].
  by apply elem_of_nil in H.
Qed.

Lemma bfs_iteration_record fg p lvl path rest st queue' st' :
  p ∉ visited_packages st →
  bfs_iteration fg (p, lvl, path) rest st = (queue', st') →
  ∃ r, dict_get (dependency_graph st') p = Some r ∧ level r = lvl.
Proof.
  intros Hvis. unfold bfs_iteration.
  rewrite bool_decide_eq_false_2 by done.
  destruct (dict_get fg p) as [deps|]; intros [= <- <-];
    (eexists; split; [cbn; by rewrite dict_get_set, decide_True | done]).
Qed.

Lemma traversal_bfs_done fg fuel root st :
  _build_graph_from_file_bfs fuel root fg fresh_visualizer = Some st →
  build_ok root st ∧ bfs_ok fg [] st.
Proof.
  unfold _build_graph_from_file_bfs. intros Hloop.
  destruct (bfs_loop_spec _ _ _ _ _ (bfs_ok_initial fg root) Hloop)
    as [Hok _].
  split; [|done]. split; [by destruct Hok | by eapply bfs_closed |].
  destruct fuel as [|fuel]; [done|]. cbn [bfs_loop] in Hloop.
  destruct (bfs_iteration fg (root, 0, []) [] fresh_visualizer)
    as [queue1 st1] eqn:Hit.
  destruct (bfs_iteration_spec _ _ _ _ _ _ (bfs_ok_initial fg root) Hit)
    as (Hok1 & _ & _).
  destruct (bfs_loop_spec _ _ _ _ _ Hok1 Hloop) as [_ Hext].
  destruct (bfs_iteration_record _ _ _ _ _ _ _ _
              (not_elem_of_empty (C := gset string) root) Hit)
    as (r & Hr & Hlvl).
  exists r. split; [|done]. by apply (extends_records_kept _ _ Hext).
Qed.

Lemma bfs_mappings fg st :
  bfs_ok fg [] st → all_mappings (dependency_graph st) = true.
Proof.
  intros [[_ Hnd _] _ Hrec]. apply all_mappings_of_get; [done|].
  intros p r Hr. specialize (Hrec p r Hr).
  destruct (dict_get fg p); by destruct Hrec as [-> _].
Qed.

Lemma traversal_dfs_done w cfg fuel root st :
  _build_graph_bfs_recursive w cfg fuel root [] fresh_visualizer
    = Some (Done st) →
  build_ok root st ∧ all_mappings (dependency_graph st) = true.
Proof.
  intros Hrun.
  destruct (visit_spec w cfg fuel root [] _ _ session_ok_fresh Hrun)
    as [(Hok & _ & _ & _ & [_ (added & Hg & Hcl)]) Hroot].
  cbn [final_state] in Hok, Hroot. split; [split; [done | | ]|].
  - intros q r d Hq Hd. destruct Hok as [Hv _ _]. apply Hv.
    apply dict_get_elem_of in Hq. rewrite Hg in Hq. eauto.
  - apply Hroot. apply not_elem_of_empty.
  - by apply (visit_mappings w cfg fuel root [] fresh_visualizer).
Qed.

(** A build ends normally exactly when its traversal does; its state is
    then the state of the traversal with the reverse index rebuilt. *)
Lemma build_done_traversal w cfg fuel st :
  build_dependency_graph_bfs w cfg fuel = Some (Done st) →
  ∃ st1, st = reverse_indexed st1 ∧
         build_ok (package_name cfg) st1 ∧
         all_mappings (dependency_graph st1) = true ∧
         match repository_mode cfg with
         | GRAPH_FILE =>
             ∃ fg, _load_graph_from_file w (repository_url cfg) = Ok fg ∧
                   _build_graph_from_file_bfs fuel (package_name cfg) fg
                     fresh_visualizer = Some st1
         | _ =>
             _build_graph_bfs_recursive w cfg fuel (package_name cfg) []
               fresh_visualizer = Some (Done st1)
         end.
Proof.
  unfold build_dependency_graph_bfs, _build_reverse_dependencies.
  destruct (repository_mode cfg).
  3: { destruct (_load_graph_from_file w (repository_url cfg)) as [fg|e];
         [|done].
       destruct (_build_graph_from_file_bfs _ _ fg _) as [st1|] eqn:Hrun;
         [|done].
       destruct (traversal_bfs_done _ _ _ _ Hrun) as [Hok Hbfs].
       simpl. rewrite (bfs_mappings _ _ Hbfs). simpl. intros [= <-].
       exists st1. split_and!; [done | done | by eapply bfs_mappings |].
       by exists fg. }
  all: destruct (_build_graph_bfs_recursive w cfg fuel _ _ _)
         as [[st1|e1 s1]|] eqn:Hrun; [|done..];
    destruct (traversal_dfs_done _ _ _ _ _ Hrun) as [Hok Hmap];
    rewrite Hmap; simpl; intros [= <-]; by exists st1.
Qed.

Lemma build_done w cfg fuel st :
  build_dependency_graph_bfs w cfg fuel = Some (Done st) →
  ∃ st1, st = reverse_indexed st1 ∧
         build_ok (package_name cfg) st1.
Proof.
  intros Hbuild.
  destruct (build_done_traversal _ _ _ _ Hbuild) as (st1 & -> & Hok & _).
  by exists st1.
Qed.

(** When its traversal ends normally, so does the build. *)
Lemma build_of_traversal w cfg fuel st1 :
  match repository_mode cfg with
  | GRAPH_FILE =>
      ∃ fg, _load_graph_from_file w (repository_url cfg) = Ok fg ∧
            _build_graph_from_file_bfs fuel (package_name cfg) fg
              fresh_visualizer = Some st1
  | _ =>
      _build_graph_bfs_recursive w cfg fuel (package_name cfg) []
        fresh_visualizer = Some (Done st1)
  end →
  build_dependency_graph_bfs w cfg fuel = Some (Done (reverse_indexed st1)).
Proof.
  unfold build_dependency_graph_bfs, _build_reverse_dependencies.
  destruct (repository_mode cfg).
  3: { intros (fg & -> & Hrun). rewrite Hrun. simpl.
       destruct (traversal_bfs_done _ _ _ _ Hrun) as [_ Hbfs].
       by rewrite (bfs_mappings _ _ Hbfs). }
  all: intros Hrun; rewrite Hrun;
    destruct (traversal_dfs_done _ _ _ _ _ Hrun) as [_ Hmap];
    by rewrite Hmap.
Qed.


(** More fuel never changes a result. *)

Lemma bfs_loop_more fg fuel : ∀ queue st st' extra,
  bfs_loop fuel fg queue st = Some st' →
  bfs_loop (fuel + extra) fg queue st = Some st'.
Proof.
  induction fuel as [|fuel IH]; intros queue st st' extra;
    destruct queue as [|item rest]; simpl; try done.
  - intros [= <-]. by destruct extra.
  - destruct (bfs_iteration fg item rest st) as [queue1 st1]. apply IH.
Qed.

Lemma for_each_more (f g : string → visualizer → option outcome) :
  (∀ x st o, f x st = Some o → g x st = Some o) →
  ∀ xs st o, for_each f xs st = Some o → for_each g xs st = Some o.
Proof.
  intros Hfg. induction xs as [|x xs IH]; intros st o; simpl; [done|].
  destruct (f x st) as [o1|] eqn:Hf; [|done].
  rewrite (Hfg _ _ _ Hf). destruct o1; [apply IH | done].
Qed.

Lemma visit_more w cfg fuel : ∀ p path st o extra,
  _build_graph_bfs_recursive w cfg fuel p path st = Some o →
  _build_graph_bfs_recursive w cfg (fuel + extra) p path st = Some o.
Proof.
  induction fuel as [|fuel IH]; intros p path st o extra; simpl; [done|].
  case_bool_decide; [done|].
  destruct (get_direct_dependencies w cfg p) as [deps|e]; [|done].
  destruct (is_mapping deps); [|done].
  match goal with |- context [for_each ?f ?xs ?s0] =>
    destruct (for_each f xs s0) as [o1|] eqn:Hloop; [|done]
  end.
  erewrite for_each_more; [done | | exact Hloop].
  intros x s o2. apply IH.
Qed.

Lemma build_more w cfg fuel extra o :
  build_dependency_graph_bfs w cfg fuel = Some o →
  build_dependency_graph_bfs w cfg (fuel + extra) = Some o.
Proof.
  unfold build_dependency_graph_bfs, _build_graph_from_file_bfs.
  destruct (repository_mode cfg).
  3: { destruct (_load_graph_from_file w (repository_url cfg)) as [fg|e];
         [|done].
       destruct (bfs_loop fuel fg _ _) as [st1|] eqn:Hrun; [|done].
       by rewrite (bfs_loop_more _ _ _ _ _ extra Hrun). }
  all: destruct (_build_graph_bfs_recursive w cfg fuel _ _ _) as [o1|] eqn:Hrun;
    [|done];
    by rewrite (visit_more _ _ _ _ _ _ _ extra Hrun).
Qed.

(** C1. For every graph a build produces, the reverse index is the exact
    inverse of the dependency edges: the bucket of a name [d] contains a
    package [p] exactly when [d] is a key of the dependency mapping of [p]'s
    record; every bucket is free of duplicates and lists its packages in
    the order the graph lists them (first occurrence first). *)
Theorem reverse_index_exact_inverse w cfg fuel st d :
  build_dependency_graph_bfs w cfg fuel = Some (Done st) →
  (∀ p, p ∈ get_reverse_dependencies st d ↔
        ∃ info, dict_get (dependency_graph st) p = Some info ∧
                d ∈ mapping_keys (dependencies info)) ∧
  NoDup (get_reverse_dependencies st d) ∧
  get_reverse_dependencies st d = dependents (dependency_graph st) d.
Proof.
  intros Hbuild. destruct (build_done _ _ _ _ Hbuild) as (st1 & -> & Hok).
  destruct Hok as [[_ Hnd _] _ _].
  unfold get_reverse_dependencies. simpl.
  fold (bucket (reverse_index (dependency_graph st1)) d).
  rewrite reverse_index_bucket by done. split_and!.
  - intros p. by apply elem_of_dependents.
  - by apply dependents_NoDup.
  - done.
Qed.

Lemma reverse_index_exact_inverse_witness :
  ∃ st,
    build_dependency_graph_bfs sample_world cyclic_config 10 = Some (Done st) ∧
    (∀ p, p ∈ get_reverse_dependencies st "B" ↔
          ∃ info, dict_get (dependency_graph st) p = Some info ∧
                  "B" ∈ mapping_keys (dependencies info)) ∧
    NoDup (get_reverse_dependencies st "B") ∧
    get_reverse_dependencies st "B" = dependents (dependency_graph st) "B" ∧
    get_reverse_dependencies st "B" = ["A"].
Proof.
  eexists. split; [vm_compute; reflexivity|].
  pose proof (reverse_index_exact_inverse sample_world cyclic_config 10 _ "B"
                ltac:(vm_compute; reflexivity)) as (H1 & H2 & H3).
  split_and!; [exact H1 | exact H2 | exact H3 | vm_compute; reflexivity].
Defined.

(** C2. For the adjacency file [{"A":["B"],"B":["C"],"C":["A"]}] and root
    "A" the build (given fuel for its four loop iterations) records exactly
    one cycle, [A, B, C], and the graph holds exactly the nodes A, B, C at
    levels 0, 1, 2, each depending on the next and C on A; A is not expanded
    a second time. *)
Theorem cyclic_graph_build w cfg extra :
  repository_mode cfg = GRAPH_FILE →
  package_name cfg = "A" →
  graph_json w (repository_url cfg) = Content cyclic_file →
  ∃ st,
    build_dependency_graph_bfs w cfg (4 + extra) = Some (Done st) ∧
    cycles_detected st = [["A"; "B"; "C"]] ∧
    dependency_graph st =
      [("A", {| dependencies := Mapping [("B", JString "*")]; level := 0;
                error := None |});
       ("B", {| dependencies := Mapping [("C", JString "*")]; level := 1;
                error := None |});
       ("C", {| dependencies := Mapping [("A", JString "*")]; level := 2;
                error := None |})].
Proof.
  intros Hmode Hroot Hfile.
  assert (_load_graph_from_file w (repository_url cfg)
          = Ok [("A", ["B"]); ("B", ["C"]); ("C", ["A"])]) as Hload.
  { unfold _load_graph_from_file. by rewrite Hfile. }
  eassert (bfs_loop 4 [("A", ["B"]); ("B", ["C"]); ("C", ["A"])]
             [("A", 0, [])] fresh_visualizer = Some _) as Hrun
    by (vm_compute; reflexivity).
  apply (bfs_loop_more _ _ _ _ _ extra) in Hrun.
  unfold build_dependency_graph_bfs, _build_graph_from_file_bfs.
  rewrite Hmode, Hload, Hroot, Hrun. simpl.
  eexists. split_and!; reflexivity.
Qed.

Lemma cyclic_graph_build_witness :
  repository_mode cyclic_config = GRAPH_FILE ∧
  package_name cyclic_config = "A" ∧
  graph_json sample_world (repository_url cyclic_config)
    = Content cyclic_file ∧
  ∃ st,
    build_dependency_graph_bfs sample_world cyclic_config 4 = Some (Done st) ∧
    cycles_detected st = [["A"; "B"; "C"]] ∧
    dependency_graph st =
      [("A", {| dependencies := Mapping [("B", JString "*")]; level := 0;
                error := None |});
       ("B", {| dependencies := Mapping [("C", JString "*")]; level := 1;
                error := None |});
       ("C", {| dependencies := Mapping [("A", JString "*")]; level := 2;
                error := None |})].
Proof.
  split; [reflexivity|]. split; [reflexivity|]. split; [reflexivity|].
  exact (cyclic_graph_build sample_world cyclic_config 0
           eq_refl eq_refl eq_refl).
Defined.


Lemma bfs_iteration_keeps fg item rest st queue' st' :
  session_ok st →
  bfs_iteration fg item rest st = (queue', st') →
  session_ok st' ∧ extends st st' ∧
  (item.1.1 ∈ visited_packages st →
   dependency_graph st' = dependency_graph st ∧ queue' = rest).
Proof.
  destruct item as [[p lvl] path]. intros Hok. unfold bfs_iteration. simpl.
  case_bool_decide as Hvis.
  - intros [= <- <-]. split_and!.
    + by apply session_ok_note_cycle.
    + exists []. by rewrite note_cycle_graph, app_nil_r.
    + intros _. by rewrite note_cycle_graph.
  - destruct (dict_get fg p) as [deps|]; intros [= <- <-];
      (split_and!;
       [ apply session_ok_store; [done | done | simpl; try done; by intros [? ?]]
       | eexists; by apply store_fresh_graph
       | done ]).
Qed.



(** C8. In the graph of a completed build no dependency name dangles:
    every name that is a key of some record's dependency mapping has a
    record of its own, which either was resolved (no error) or records the
    failed lookup in its error field, with no dependencies. *)
Theorem no_dangling_dependency w cfg fuel st p r d :
  build_dependency_graph_bfs w cfg fuel = Some (Done st) →
  dict_get (dependency_graph st) p = Some r →
  d ∈ mapping_keys (dependencies r) →
  ∃ rd, dict_get (dependency_graph st) d = Some rd ∧
        (error rd = None ∨ (is_Some (error rd) ∧ dependencies rd = Mapping [])).
Proof.
  intros Hbuild Hp Hd.
  destruct (build_done _ _ _ _ Hbuild) as (st1 & -> & [[_ _ Herr] Hcl _]).
  simpl in *. pose proof (Hcl p r d Hp Hd) as Hkey.
  apply dict_get_is_Some in Hkey as [rd Hrd]. exists rd. split; [done|].
  destruct (error rd) as [msg|] eqn:He; [right | by left].
  split; [done|]. apply (Herr d rd Hrd). rewrite He. done.
Qed.

Lemma no_dangling_dependency_witness :
  ∃ st r,
    build_dependency_graph_bfs sample_world webapp_config 10 = Some (Done st) ∧
    dict_get (dependency_graph st) "react" = Some r ∧
    "loose-envify" ∈ mapping_keys (dependencies r) ∧
    ∃ rd, dict_get (dependency_graph st) "loose-envify" = Some rd ∧
          (error rd = None ∨ (is_Some (error rd) ∧ dependencies rd = Mapping [])).
Proof.
  eexists. eexists.
  split; [vm_compute; reflexivity|].
  split; [vm_compute; reflexivity|].
  split; [vm_compute; apply list_elem_of_here|].
  eapply (no_dangling_dependency sample_world webapp_config 10 _ "react").
  - vm_compute. reflexivity.
  - vm_compute. reflexivity.
  - vm_compute. apply list_elem_of_here.
Defined.

(** ** Version selection *)

Lemma ascii_compare_lt_trans a b c :
  Ascii.compare a b = Lt → Ascii.compare b c = Lt → Ascii.compare a c = Lt.
Proof.
  unfold Ascii.compare. rewrite !N.compare_lt_iff. lia.
Qed.

Lemma string_compare_lt_trans : ∀ a b c,
  String.compare a b = Lt → String.compare b c = Lt → String.compare a c = Lt.
Proof.
  induction a as [|x a IH]; intros [|y b] [|z c]; simpl; try done.
  destruct (Ascii.compare x y) eqn:Hxy; try done;
    destruct (Ascii.compare y z) eqn:Hyz; try done.
  - apply Ascii.compare_eq_iff in Hxy, Hyz. subst.
    assert (Ascii.compare z z = Eq) as ->; [|apply IH].
    unfold Ascii.compare. apply N.compare_refl.
  - apply Ascii.compare_eq_iff in Hxy. subst. by rewrite Hyz.
  - apply Ascii.compare_eq_iff in Hyz. subst. by rewrite Hxy.
  - by rewrite (ascii_compare_lt_trans _ _ _ Hxy Hyz).
Qed.

Lemma string_compare_refl s : String.compare s s = Eq.
Proof.
  induction s as [|x s IH]; simpl; [done|].
  assert (Ascii.compare x x = Eq) as ->; [|done].
  unfold Ascii.compare. apply N.compare_refl.
Qed.

Lemma string_leb_cases a b :
  String.leb a b = true ↔ String.compare a b = Lt ∨ a = b.
Proof.
  unfold String.leb. split.
  - destruct (String.compare a b) eqn:H; try done; intros _; [right|by left].
    by apply String.compare_eq_iff.
  - intros [-> | ->]; [done|]. by rewrite string_compare_refl.
Qed.

Lemma string_leb_trans a b c :
  String.leb a b = true → String.leb b c = true → String.leb a c = true.
Proof.
  rewrite !string_leb_cases. intros [Hab| ->] [Hbc| ->]; eauto.
  left. by eapply string_compare_lt_trans.
Qed.

Lemma string_ltb_leb a b : String.ltb a b = true → String.leb a b = true.
Proof.
  unfold String.ltb, String.leb. by destruct (String.compare a b).
Qed.

Lemma string_ltb_false a b : String.ltb a b = false → String.leb b a = true.
Proof.
  unfold String.ltb, String.leb. rewrite (String.compare_antisym a b).
  by destruct (String.compare b a).
Qed.

Lemma head_insert_desc x l :
  head (insert_desc x l) =
  match head l with
  | Some y => if String.ltb y x then Some x else Some y
  | None => Some x
  end.
Proof. destruct l as [|y l]; simpl; [done|]. by destruct (String.ltb y x). Qed.

Lemma head_sorted_reverse l : head (sorted_reverse l) = greatest l.
Proof.
  induction l as [|x l IH]; simpl; [done|].
  by rewrite head_insert_desc, IH.
Qed.

Lemma greatest_spec l :
  match greatest l with
  | Some v => v ∈ l ∧ ∀ y, y ∈ l → String.leb y v = true
  | None => l = []
  end.
Proof.
  induction l as [|x l IH]; simpl; [done|].
  destruct (greatest l) as [m|].
  - destruct IH as [Hm Hmax]. destruct (String.ltb m x) eqn:Hlt.
    + split; [apply list_elem_of_here|].
      intros y Hy. apply elem_of_cons in Hy as [->|Hy].
      * rewrite string_leb_cases. by right.
      * eapply string_leb_trans; [by apply Hmax | by apply string_ltb_leb].
    + split; [by apply list_elem_of_further|].
      intros y Hy. apply elem_of_cons in Hy as [->|Hy]; [|by apply Hmax].
      by apply string_ltb_false.
  - subst l. split; [apply list_elem_of_here|].
    intros y Hy. apply list_elem_of_singleton in Hy as ->.
    rewrite string_leb_cases. by right.
Qed.

Lemma find_none_has_dependencies versions l :
  (∀ v, version_has_dependencies versions v = false) →
  List.find (version_has_dependencies versions) l = None.
Proof.
  intros H. induction l as [|x l IH]; simpl; [done|]. by rewrite H.
Qed.

Lemma no_dependencies_anywhere info v :
  no_version_has_dependencies info →
  version_has_dependencies (default [] (info_versions info)) v = false.
Proof.
  intros H. unfold version_has_dependencies.
  destruct (dict_get _ v) as [vd|] eqn:Hv; [by apply (H v) | done].
Qed.

(** C4 (as amended). When no version has a non-empty dependency mapping
    (no version passes the truth test of the code on its "dependencies"),
    the selection returns the "latest" tag if it is a non-empty string naming
    a known version; otherwise the lexicographically greatest version string
    (the first of the descending order); otherwise, with no versions, it
    reports none. *)
Theorem version_fallback info :
  no_version_has_dependencies info →
  if latest_known (dict_get (default [] (info_dist_tags info)) "latest")
       (default [] (info_versions info))
  then _find_version_with_dependencies info =
       dict_get (default [] (info_dist_tags info)) "latest"
  else
    match _find_version_with_dependencies info with
    | Some v =>
        v ∈ dict_keys (default [] (info_versions info)) ∧
        ∀ v', v' ∈ dict_keys (default [] (info_versions info)) →
              String.leb v' v = true
    | None => default [] (info_versions info) = []
    end.
Proof.
  intros Hno. unfold _find_version_with_dependencies.
  rewrite find_none_has_dependencies by (intros v; by apply no_dependencies_anywhere).
  destruct (dict_get (default [] (info_dist_tags info)) "latest")
    as [latest|] eqn:Hlatest; simpl.
  - rewrite no_dependencies_anywhere by done. rewrite andb_false_r.
    destruct (negb (bool_decide (latest = "")) &&
              dict_has (default [] (info_versions info)) latest); [done|].
    rewrite head_sorted_reverse.
    pose proof (greatest_spec (dict_keys (default [] (info_versions info)))) as H.
    destruct (greatest _); [done|].
    unfold dict_keys in H. by apply fmap_nil_inv in H.
  - rewrite head_sorted_reverse.
    pose proof (greatest_spec (dict_keys (default [] (info_versions info)))) as H.
    destruct (greatest _); [done|].
    unfold dict_keys in H. by apply fmap_nil_inv in H.
Qed.

Lemma bare_info_no_dependencies : no_version_has_dependencies bare_info.
Proof.
  intros v vd. simpl. repeat case_decide; intros Hvd; by simplify_eq.
Qed.

Lemma version_fallback_witness :
  no_version_has_dependencies bare_info ∧
  _find_version_with_dependencies bare_info = Some "2.0.0" ∧
  "2.0.0" ∈ dict_keys (default [] (info_versions bare_info)) ∧
  ∀ v', v' ∈ dict_keys (default [] (info_versions bare_info)) →
        String.leb v' "2.0.0" = true.
Proof.
  split; [exact bare_info_no_dependencies|].
  split; [reflexivity|].
  exact (version_fallback bare_info bare_info_no_dependencies).
Defined.

(** C4, as stated, fails.  The fallback as the specification words it ("the
    lexicographically first version") is not what the code returns: with versions 1.0.0 and
    2.0.0, none with dependencies and no "latest" tag, the code selects
    2.0.0 where the wording names 1.0.0. *)
Lemma version_fallback_counterexample :
  no_version_has_dependencies bare_info ∧
  spec_fallback_version bare_info = Some "1.0.0" ∧
  _find_version_with_dependencies bare_info = Some "2.0.0" ∧
  _find_version_with_dependencies bare_info ≠ spec_fallback_version bare_info.
Proof.
  split; [exact bare_info_no_dependencies|]. by vm_compute.
Qed.

(** ** Adjacency files *)

Lemma strings_of_valid items :
  forallb (fun x => match x with JString _ => true | _ => false end) items
    = true →
  is_Some (strings_of items).
Proof.
  induction items as [|x items IH]; simpl; [eauto|].
  destruct x; try done. intros H. destruct (IH H) as [deps ->]. simpl. eauto.
Qed.

Lemma strings_of_invalid items :
  forallb (fun x => match x with JString _ => true | _ => false end) items
    = false →
  strings_of items = None.
Proof.
  induction items as [|x items IH]; simpl; [done|].
  destruct x; try done. intros H. by rewrite (IH H).
Qed.

Lemma validate_graph_invalid members :
  forallb (fun member => is_string_array member.2) members = false →
  ∃ msg, validate_graph members = Raise (GraphError msg).
Proof.
  induction members as [|[package v] members IH]; simpl; [done|].
  destruct (is_string_array v) eqn:Hv; simpl.
  - intros Hrest. destruct (IH Hrest) as [msg Hmsg].
    destruct v; try done. simpl in Hv.
    destruct (strings_of_valid _ Hv) as [deps ->]. rewrite Hmsg. eauto.
  - intros _. destruct v; eauto. simpl in Hv.
    rewrite (strings_of_invalid _ Hv). eauto.
Qed.

Lemma validate_graph_valid members :
  forallb (fun member => is_string_array member.2) members = true →
  ∃ graph, validate_graph members = Ok graph.
Proof.
  induction members as [|[package v] members IH]; simpl; [eauto|].
  intros H. apply andb_prop in H as [Hv Hrest].
  destruct (IH Hrest) as [graph Hgraph]. destruct v; try done. simpl in Hv.
  destruct (strings_of_valid _ Hv) as [deps ->]. rewrite Hgraph. eauto.
Qed.

(** A structurally valid file does load. *)
Lemma valid_graph_file_loads w path j :
  graph_json w path = Content j → structurally_valid j = true →
  ∃ graph, _load_graph_from_file w path = Ok graph.
Proof.
  unfold _load_graph_from_file. intros -> Hj. destruct j; try done.
  by apply validate_graph_valid.
Qed.

Lemma invalid_graph_file_raises w path j :
  graph_json w path = Content j → structurally_valid j = false →
  ∃ msg, _load_graph_from_file w path = Raise (GraphError msg).
Proof.
  unfold _load_graph_from_file. intros -> Hj. destruct j; eauto.
  by apply validate_graph_invalid.
Qed.

(** C6. In adjacency-file mode a structurally invalid graph file (the
    top-level value is not an object, or some value is not a sequence of
    strings) makes the build end with a [GraphError], whatever the fuel:
    no traversal has run and the dependency graph is empty. *)
Theorem invalid_graph_file_aborts w cfg fuel j :
  repository_mode cfg = GRAPH_FILE →
  graph_json w (repository_url cfg) = Content j →
  structurally_valid j = false →
  ∃ msg st,
    build_dependency_graph_bfs w cfg fuel = Some (Raised (GraphError msg) st) ∧
    dependency_graph st = [] ∧ visited_packages st = ∅ ∧
    reverse_dependencies st = [].
Proof.
  intros Hmode Hfile Hbad.
  destruct (invalid_graph_file_raises _ _ _ Hfile Hbad) as [msg Hload].
  exists msg, fresh_visualizer. unfold build_dependency_graph_bfs.
  by rewrite Hmode, Hload.
Qed.

Lemma invalid_graph_file_aborts_witness :
  repository_mode broken_config = GRAPH_FILE ∧
  graph_json sample_world (repository_url broken_config)
    = Content (JObject [("A", JString "B")]) ∧
  structurally_valid (JObject [("A", JString "B")]) = false ∧
  ∃ msg st,
    build_dependency_graph_bfs sample_world broken_config 7
      = Some (Raised (GraphError msg) st) ∧
    dependency_graph st = [] ∧ visited_packages st = ∅ ∧
    reverse_dependencies st = [].
Proof.
  split; [reflexivity|]. split; [reflexivity|]. split; [reflexivity|].
  apply (invalid_graph_file_aborts sample_world broken_config 7
           (JObject [("A", JString "B")])); reflexivity.
Defined.

Lemma build_graph_file_done w cfg fuel file_graph st :
  repository_mode cfg = GRAPH_FILE →
  _load_graph_from_file w (repository_url cfg) = Ok file_graph →
  build_dependency_graph_bfs w cfg fuel = Some (Done st) →
  ∃ st1, st = reverse_indexed st1 ∧ bfs_ok file_graph [] st1.
Proof.
  intros Hmode Hload Hbuild.
  destruct (build_done_traversal _ _ _ _ Hbuild) as (st1 & -> & _ & _ & Hrun).
  rewrite Hmode in Hrun. destruct Hrun as (fg & Hfg & Hrun).
  rewrite Hload in Hfg. injection Hfg as <-.
  exists st1. split; [done|].
  by apply traversal_bfs_done in Hrun as [_ ?].
Qed.

(** The breadth-first build of a loaded adjacency file always completes,
    given fuel for the root and for every listed dependency. *)
Lemma build_graph_file_total w cfg file_graph fuel :
  repository_mode cfg = GRAPH_FILE →
  _load_graph_from_file w (repository_url cfg) = Ok file_graph →
  (1 + sum_list (length <$> file_graph.*2) ≤ fuel)%nat →
  ∃ st, build_dependency_graph_bfs w cfg fuel = Some (Done st).
Proof.
  intros Hmode Hload Hfuel.
  destruct (bfs_loop_total file_graph fuel [(package_name cfg, 0, [])]
              fresh_visualizer) as [st1 Hrun].
  2: { exists (reverse_indexed st1). apply build_of_traversal.
       rewrite Hmode. by exists file_graph. }
  unfold bfs_work. simpl.
  assert (unexpanded file_graph ∅ = sum_list (length <$> file_graph.*2))
    as ->; [|lia].
  clear Hload. unfold unexpanded.
  induction file_graph as [|[q ds] fg IH]; csimpl; [done|].
  rewrite IH; [done|]. csimpl in Hfuel. lia.
Qed.

(** C3 (as amended). In adjacency-file mode it is the traversal of the
    build that treats a name absent from the loaded mapping as "dependencies
    unknown": the loop iteration records the node with an empty dependency
    mapping and an error message and enqueues nothing, and so the record of
    such a name in a completed build carries that error.  The per-package
    lookup [get_direct_dependencies] does not fail for such a name: it
    returns the empty mapping. *)
Theorem absent_package_in_adjacency_mode w cfg file_graph p :
  repository_mode cfg = GRAPH_FILE →
  _load_graph_from_file w (repository_url cfg) = Ok file_graph →
  dict_get file_graph p = None →
  get_direct_dependencies w cfg p = Ok (Mapping []) ∧
  (∀ lvl path queue st,
     p ∉ visited_packages st →
     bfs_iteration file_graph (p, lvl, path) queue st =
     (queue,
      store_node p
        {| dependencies := Mapping [];
           level := lvl;
           error := Some ("Пакет " +:+ p +:+ " не найден в графе") |}
        (mark_visited p st))) ∧
  (∀ fuel st r,
     build_dependency_graph_bfs w cfg fuel = Some (Done st) →
     dict_get (dependency_graph st) p = Some r →
     dependencies r = Mapping [] ∧
     error r = Some ("Пакет " +:+ p +:+ " не найден в графе")).
Proof.
  intros Hmode Hload Habsent. split_and!.
  - unfold get_direct_dependencies. by rewrite Hmode, Hload, Habsent.
  - intros lvl path queue st Hvis. unfold bfs_iteration.
    by rewrite bool_decide_eq_false_2, Habsent.
  - intros fuel st r Hbuild Hr.
    destruct (build_graph_file_done _ _ _ _ _ Hmode Hload Hbuild)
      as (st1 & -> & [_ _ Hrec]).
    specialize (Hrec p r Hr). by rewrite Habsent in Hrec.
Qed.

Lemma absent_package_in_adjacency_mode_witness :
  repository_mode dangling_config = GRAPH_FILE ∧
  _load_graph_from_file sample_world (repository_url dangling_config)
    = Ok [("A", ["B"])] ∧
  dict_get [("A", ["B"])] "B" = None ∧
  get_direct_dependencies sample_world dangling_config "B"
    = Ok (Mapping []) ∧
  bfs_iteration [("A", ["B"])] ("B", 1, ["A"]) [] fresh_visualizer =
  ([],
   store_node "B"
     {| dependencies := Mapping [];
        level := 1;
        error := Some ("Пакет " +:+ "B" +:+ " не найден в графе") |}
     (mark_visited "B" fresh_visualizer)) ∧
  ∃ st r,
    build_dependency_graph_bfs sample_world dangling_config 5
      = Some (Done st) ∧
    dict_get (dependency_graph st) "B" = Some r ∧
    level r = 1 ∧
    dependencies r = Mapping [] ∧
    error r = Some ("Пакет " +:+ "B" +:+ " не найден в графе").
Proof.
  split; [reflexivity|]. split; [reflexivity|]. split; [reflexivity|].
  destruct (absent_package_in_adjacency_mode sample_world dangling_config
              [("A", ["B"])] "B" eq_refl eq_refl eq_refl)
    as (Hlookup & Hstep & Hbuild).
  split; [exact Hlookup|].
  split; [apply Hstep; apply not_elem_of_empty|].
  eexists. eexists.
  split; [vm_compute; reflexivity|].
  split; [vm_compute; reflexivity|].
  split; [reflexivity|].
  eapply (Hbuild 5); vm_compute; reflexivity.
Defined.

(** C3, as stated, fails.  The adapter contract as the specification words
    it does not hold of the code: in adjacency-file mode the lookup of "Z", absent from the loaded
    mapping, returns the empty mapping and raises nothing. *)
Lemma absent_lookup_counterexample :
  repository_mode cyclic_config = GRAPH_FILE ∧
  (∃ file_graph,
     _load_graph_from_file sample_world (repository_url cyclic_config)
       = Ok file_graph ∧
     dict_get file_graph "Z" = None) ∧
  get_direct_dependencies sample_world cyclic_config "Z" = Ok (Mapping []) ∧
  ¬ lookup_fails sample_world cyclic_config "Z".
Proof.
  split; [reflexivity|]. split; [eexists; split; reflexivity|].
  split; [reflexivity|]. by intros [e He].
Qed.

(** ** Termination of the depth-first builder *)

Lemma unvisited_le universe (V V' : gset string) :
  V ⊆ V' → (unvisited universe V' ≤ unvisited universe V)%nat.
Proof.
  intros Hsub. unfold unvisited.
  induction universe as [|x universe IH]; [done|].
  rewrite !filter_cons. repeat case_decide; simpl; try lia.
  exfalso. auto.
Qed.

Lemma unvisited_lt universe (V V' : gset string) p :
  V ⊆ V' → p ∈ universe → p ∉ V → p ∈ V' →
  (unvisited universe V' < unvisited universe V)%nat.
Proof.
  intros Hsub Hp HpV HpV'. unfold unvisited.
  induction universe as [|x universe IH]; [by apply elem_of_nil in Hp|].
  pose proof (unvisited_le universe V V' Hsub) as Hle. unfold unvisited in Hle.
  rewrite !filter_cons. apply elem_of_cons in Hp as [<-|Hp].
  - rewrite decide_False by auto. rewrite decide_True by done. simpl. lia.
  - specialize (IH Hp). repeat case_decide; simpl; try lia.
    exfalso. auto.
Qed.

Section DepthFirstTotal.
Variables (w : world) (cfg : config) (universe : list string).
Hypothesis Hclosed : closed_universe w cfg universe.

Lemma for_each_total (f : string → visualizer → option outcome) bound :
  (∀ x st, session_ok st → x ∈ universe →
           (unvisited universe (visited_packages st) < bound)%nat →
           ∃ o, f x st = Some o ∧ visit_post x st o ∧
                (answers_are_mappings w cfg universe → ∃ st', o = Done st')) →
  ∀ xs st,
    session_ok st → (∀ x, x ∈ xs → x ∈ universe) →
    (unvisited universe (visited_packages st) < bound)%nat →
    ∃ o, for_each f xs st = Some o ∧
         (answers_are_mappings w cfg universe → ∃ st', o = Done st').
Proof.
  intros Hf. induction xs as [|x xs IH]; intros st Hok Hxs Hfuel; simpl.
  - eauto.
  - destruct (Hf x st Hok) as (o1 & -> & (Hok1 & Hsub & _) & Hdone);
      [apply Hxs, list_elem_of_here | done |].
    destruct o1 as [st1|e1 s1]; cbn [final_state] in Hok1, Hsub.
    + apply IH; [done | |].
      * intros y Hy. by apply Hxs, list_elem_of_further.
      * pose proof (unvisited_le universe _ _ Hsub). lia.
    + eexists. split; [done|]. intros Hmap. by destruct (Hdone Hmap).
Qed.

Lemma visit_total fuel : ∀ p path st,
  session_ok st → p ∈ universe →
  (unvisited universe (visited_packages st) < fuel)%nat →
  ∃ o, _build_graph_bfs_recursive w cfg fuel p path st = Some o ∧
       (answers_are_mappings w cfg universe → ∃ st', o = Done st').
Proof.
  induction fuel as [|fuel IH]; intros p path st Hok Hp Hfuel; [lia|].
  rewrite visit_unfold. case_bool_decide as Hvis; [eauto|].
  destruct (get_direct_dependencies w cfg p) as [value|[msg|msg|msg]]
    eqn:Hfetch; [|eauto|..].
  - destruct (is_mapping value) eqn:Hmap.
    + apply (for_each_total _ fuel).
      * intros x s Hs Hx Hb.
        destruct (IH x (path ++ [p]) s Hs Hx Hb) as (o & Hrun & Hdone).
        exists o. split_and!; [done | | done].
        by destruct (visit_spec w cfg fuel x (path ++ [p]) s _ Hs Hrun).
      * apply session_ok_store; [done | done |]. simpl. by intros [? ?].
      * intros d Hd. by apply (Hclosed p value d).
      * simpl.
        assert (unvisited universe ({[p]} ∪ visited_packages st)
                < unvisited universe (visited_packages st))%nat; [|lia].
        apply (unvisited_lt _ _ _ p); [| done | done |].
        -- intros k Hk. apply elem_of_union. by right.
        -- apply elem_of_union. left. by apply elem_of_singleton.
    + eexists. split; [done|]. intros Hall.
      rewrite (Hall p value Hp Hfetch) in Hmap. done.
  - by destruct (get_direct_dependencies_raises _ _ _ _ Hfetch).
  - by destruct (get_direct_dependencies_raises _ _ _ _ Hfetch).
Qed.
End DepthFirstTotal.

(** With a finite set of names closed under the adapter's answers, the
    build of a per-call mode ends once the fuel exceeds the size of the
    set; it ends normally when the answers for these names are mappings. *)
Lemma build_per_call_total w cfg universe fuel :
  repository_mode cfg ≠ GRAPH_FILE →
  closed_universe w cfg universe →
  package_name cfg ∈ universe →
  (length universe < fuel)%nat →
  (∃ o, build_dependency_graph_bfs w cfg fuel = Some o) ∧
  (answers_are_mappings w cfg universe →
   ∃ st, build_dependency_graph_bfs w cfg fuel = Some (Done st)).
Proof.
  intros Hmode Hclosed Hroot Hfuel.
  destruct (visit_total w cfg universe Hclosed fuel (package_name cfg) []
              fresh_visualizer session_ok_fresh Hroot) as (o & Hrun & Hdone).
  { unfold unvisited. eapply Nat.le_lt_trans; [apply length_filter | done]. }
  assert (∀ st, o = Done st →
                build_dependency_graph_bfs w cfg fuel
                  = Some (Done (reverse_indexed st))) as Hbuild.
  { intros st ->. apply build_of_traversal.
    by destruct (repository_mode cfg). }
  split.
  - destruct o as [st|e s]; [eauto|].
    exists (Raised e s). unfold build_dependency_graph_bfs.
    destruct (repository_mode cfg); [| |done]; by rewrite Hrun.
  - intros Hall. destruct (Hdone Hall) as [st ->]. eauto.
Qed.

(** ** Failed lookups in the per-call modes *)

Lemma for_each_records w cfg (f : string → visualizer → option outcome) :
  (∀ x st o, records_from_adapter w cfg st → f x st = Some o →
             records_from_adapter w cfg (final_state o)) →
  ∀ xs st o,
    records_from_adapter w cfg st → for_each f xs st = Some o →
    records_from_adapter w cfg (final_state o).
Proof.
  intros Hf. induction xs as [|x xs IH]; intros st o Hst; simpl.
  - by intros [= <-].
  - destruct (f x st) as [o1|] eqn:Hfx; [|done].
    pose proof (Hf x st o1 Hst Hfx) as H1.
    destruct o1 as [st1|e1 s1]; [by apply IH | by intros [= <-]].
Qed.

Lemma visit_records w cfg fuel : ∀ p path st o,
  records_from_adapter w cfg st →
  _build_graph_bfs_recursive w cfg fuel p path st = Some o →
  records_from_adapter w cfg (final_state o).
Proof.
  induction fuel as [|fuel IH]; intros p path st o Hst; [done|].
  rewrite visit_unfold. case_bool_decide.
  - intros [= <-]. simpl. intros q r. rewrite note_cycle_graph. apply Hst.
  - assert (∀ rec,
              (∀ r, r = rec →
                    match get_direct_dependencies w cfg p with
                    | Ok deps => dependencies r = deps ∧ error r = None
                    | Raise (DependencyError msg) =>
                        dependencies r = Mapping [] ∧ error r = Some msg
                    | Raise (GraphError _) | Raise (OtherError _) => False
                    end) →
              records_from_adapter w cfg
                (store_node p rec (mark_visited p st))) as Hstore.
    { intros rec Hrec q r. cbn. rewrite dict_get_set. case_decide as Hq.
      - subst q. intros [= <-]. by apply Hrec.
      - apply Hst. }
    destruct (get_direct_dependencies w cfg p) as [value|[msg|msg|msg]]
      eqn:Hfetch.
    + destruct (is_mapping value).
      * apply for_each_records; [intros x s o2; apply IH|].
        apply Hstore. by intros r ->.
      * intros [= <-]. apply Hstore. by intros r ->.
    + intros [= <-]. apply Hstore. by intros r ->.
    + by destruct (get_direct_dependencies_raises _ _ _ _ Hfetch).
    + by destruct (get_direct_dependencies_raises _ _ _ _ Hfetch).
Qed.

Lemma records_from_adapter_fresh w cfg :
  records_from_adapter w cfg fresh_visualizer.
Proof. intros q r Hq. simpl in Hq. done. Qed.

Lemma build_per_call_records w cfg fuel st :
  repository_mode cfg ≠ GRAPH_FILE →
  build_dependency_graph_bfs w cfg fuel = Some (Done st) →
  records_from_adapter w cfg st.
Proof.
  intros Hmode Hbuild.
  destruct (build_done_traversal _ _ _ _ Hbuild) as (st1 & -> & _ & _ & Hrun).
  destruct (repository_mode cfg); [| |done];
    exact (visit_records _ _ _ _ _ _ _
             (records_from_adapter_fresh w cfg) Hrun).
Qed.


Lemma missing_manifest_raises w cfg p :
  repository_mode cfg = TEST →
  package_json w (repository_url cfg) p = Missing →
  get_direct_dependencies w cfg p =
  Raise (DependencyError
           ("Файл package.json не найден для пакета " +:+ p +:+
            " в тестовом репозитории")).
Proof.
  unfold get_direct_dependencies, _get_dependencies_from_test_repo.
  by intros -> ->.
Qed.

Lemma sample_universe_closed :
  closed_universe sample_world webapp_config sample_universe.
Proof.
  intros p deps d Hp Hfetch Hd. unfold sample_universe in Hp.
  repeat (apply elem_of_cons in Hp as [->|Hp]);
    [.. | by apply elem_of_nil in Hp];
    vm_compute in Hfetch; simplify_eq;
    unfold dict_keys in Hd; simpl in Hd;
    repeat (apply elem_of_cons in Hd as [->|Hd]);
    try (by apply elem_of_nil in Hd);
    in_list.
Qed.

Lemma sample_answers_are_mappings :
  answers_are_mappings sample_world webapp_config sample_universe.
Proof.
  intros q value Hq Hfetch. unfold sample_universe in Hq.
  repeat (apply elem_of_cons in Hq as [->|Hq]);
    [.. | by apply elem_of_nil in Hq];
    vm_compute in Hfetch; by simplify_eq.
Qed.

(** C5. In the per-call modes a [DependencyError] of the adapter for a
    package is absorbed: the call of the builder on that package returns
    normally, having recorded the node with an empty dependency mapping and
    the error message, whatever fuel it is given beyond the call itself (it
    makes no recursive call); the loop over the sibling dependencies goes on
    from that state with the next name; no [DependencyError] ever leaves a
    call of the builder or the build (the one exception that can leave them
    is the [AttributeError] on an answer of the adapter that is not a
    mapping); in a completed build the record of the package is that error
    record; and over a finite set of names closed under the adapter's
    answers the build does end, normally when these answers are mappings
    or errors. *)
Theorem lookup_failure_absorbed w cfg fuel p path st msg :
  repository_mode cfg ≠ GRAPH_FILE →
  p ∉ visited_packages st →
  get_direct_dependencies w cfg p = Raise (DependencyError msg) →
  _build_graph_bfs_recursive w cfg (S fuel) p path st
    = Some (Done (record_failure p path msg st)) ∧
  (∀ rest,
     for_each (fun dep => _build_graph_bfs_recursive w cfg (S fuel) dep path)
       (p :: rest) st =
     for_each (fun dep => _build_graph_bfs_recursive w cfg (S fuel) dep path)
       rest (record_failure p path msg st)) ∧
  (∀ fuel' q path' st' e s,
     _build_graph_bfs_recursive w cfg fuel' q path' st' = Some (Raised e s) →
     no_keys_failure w cfg e) ∧
  (∀ fuel' e s,
     build_dependency_graph_bfs w cfg fuel' = Some (Raised e s) →
     no_keys_failure w cfg e) ∧
  (∀ fuel' st' r,
     build_dependency_graph_bfs w cfg fuel' = Some (Done st') →
     dict_get (dependency_graph st') p = Some r →
     dependencies r = Mapping [] ∧ error r = Some msg) ∧
  (∀ universe fuel',
     closed_universe w cfg universe → package_name cfg ∈ universe →
     (length universe < fuel')%nat →
     (∃ o, build_dependency_graph_bfs w cfg fuel' = Some o) ∧
     (answers_are_mappings w cfg universe →
      ∃ st', build_dependency_graph_bfs w cfg fuel' = Some (Done st'))).
Proof.
  intros Hmode Hvis Hfetch.
  assert (_build_graph_bfs_recursive w cfg (S fuel) p path st
          = Some (Done (record_failure p path msg st))) as Hcall.
  { rewrite visit_unfold, bool_decide_eq_false_2 by done. by rewrite Hfetch. }
  split_and!.
  - exact Hcall.
  - intros rest. cbn [for_each]. by rewrite Hcall.
  - intros fuel' q path' st' e s. apply visit_raises.
  - intros fuel' e s. unfold build_dependency_graph_bfs.
    destruct (repository_mode cfg); [| |done];
      (destruct (_build_graph_bfs_recursive w cfg fuel' _ _ _)
         as [[st1|e1 s1]|] eqn:Hrun; [|intros [= <- <-]|done];
       [ unfold _build_reverse_dependencies;
         by destruct (all_mappings (dependency_graph st1))
       | by apply (visit_raises _ _ _ _ _ _ _ _ Hrun) ]).
  - intros fuel' st' r Hbuild Hr.
    pose proof (build_per_call_records _ _ _ _ Hmode Hbuild p r Hr) as Hrec.
    by rewrite Hfetch in Hrec.
  - intros universe fuel' Hclosed Hroot Hfuel.
    by apply (build_per_call_total w cfg universe).
Qed.

Lemma lookup_failure_absorbed_witness :
  repository_mode webapp_config ≠ GRAPH_FILE ∧
  ("accepts" ∉ visited_packages fresh_visualizer) ∧
  get_direct_dependencies sample_world webapp_config "accepts" =
    Raise (DependencyError
             ("Файл package.json не найден для пакета " +:+ "accepts" +:+
              " в тестовом репозитории")) ∧
  _build_graph_bfs_recursive sample_world webapp_config 1 "accepts"
    ["webapp"; "express"] fresh_visualizer
  = Some (Done (record_failure "accepts" ["webapp"; "express"]
                  ("Файл package.json не найден для пакета " +:+ "accepts"
                   +:+ " в тестовом репозитории")
                  fresh_visualizer)) ∧
  ∃ st,
    build_dependency_graph_bfs sample_world webapp_config 10 = Some (Done st) ∧
    dict_get (dependency_graph st) "accepts" =
      Some {| dependencies := Mapping [];
              level := 2;
              error := Some ("Файл package.json не найден для пакета "
                             +:+ "accepts" +:+ " в тестовом репозитории") |}.
Proof.
  assert (repository_mode webapp_config ≠ GRAPH_FILE) as Hmode by done.
  assert ("accepts" ∉ visited_packages fresh_visualizer) as Hvis
    by apply not_elem_of_empty.
  pose proof (missing_manifest_raises sample_world webapp_config "accepts"
                eq_refl eq_refl) as Hfetch.
  destruct (lookup_failure_absorbed sample_world webapp_config 0
              "accepts" ["webapp"; "express"] fresh_visualizer _
              Hmode Hvis Hfetch) as (Hcall & _ & _ & _ & _ & Htotal).
  split; [exact Hmode|]. split; [exact Hvis|]. split; [exact Hfetch|].
  split; [exact Hcall|].
  destruct (Htotal sample_universe 10 sample_universe_closed)
    as [_ Hdone].
  { simpl. unfold sample_universe. in_list. }
  { simpl. lia. }
  destruct (Hdone sample_answers_are_mappings) as [st Hst].
  exists st. split; [exact Hst|].
  assert (Some (Done st) =
          build_dependency_graph_bfs sample_world webapp_config 10) as Heq
    by (by rewrite Hst).
  vm_compute in Heq. injection Heq as ->. vm_compute. reflexivity.
Defined.

(** ** Graph exporter *)



(** C10. The annotated export, too, is the empty string when the graph
    has not been built (is empty). *)
Theorem annotated_export_of_empty_graph cfg st :
  dependency_graph st = [] → generate_graphviz cfg st = Some "".
Proof. unfold generate_graphviz. by intros ->. Qed.

Lemma annotated_export_of_empty_graph_witness :
  dependency_graph fresh_visualizer = [] ∧
  generate_graphviz cyclic_config fresh_visualizer = Some "".
Proof.
  split; [reflexivity|].
  exact (annotated_export_of_empty_graph cyclic_config fresh_visualizer
           eq_refl).
Defined.

(** * Further properties of the code *)

(** ** Cycle normalisation *)

Lemma normalize_from_elem l : ∀ (acc : list string) x,
  x ∈ foldl (fun normalized n =>
               if bool_decide (n ∈ normalized) then normalized
               else normalized ++ [n]) acc l
  ↔ x ∈ acc ∨ x ∈ l.
Proof.
  induction l as [|y l IH]; intros acc x; cbn [foldl].
  - rewrite elem_of_nil. tauto.
  - rewrite IH, elem_of_cons. case_bool_decide as Hy.
    + split; [tauto|]. intros [H|[->|H]]; tauto.
    + rewrite elem_of_app, list_elem_of_singleton. tauto.
Qed.

Lemma normalize_from_NoDup l : ∀ acc : list string,
  NoDup acc →
  NoDup (foldl (fun normalized n =>
                  if bool_decide (n ∈ normalized) then normalized
                  else normalized ++ [n]) acc l).
Proof.
  induction l as [|y l IH]; intros acc Hacc; cbn [foldl]; [done|].
  apply IH. case_bool_decide as Hy; [done|].
  apply NoDup_app. split_and!; [done | | apply NoDup_singleton].
  intros x Hx Hx'. apply list_elem_of_singleton in Hx' as ->. done.
Qed.

Lemma normalize_from_id l : ∀ acc : list string,
  NoDup (acc ++ l) →
  foldl (fun normalized n =>
           if bool_decide (n ∈ normalized) then normalized
           else normalized ++ [n]) acc l = acc ++ l.
Proof.
  induction l as [|y l IH]; intros acc Hnd; cbn [foldl].
  - by rewrite app_nil_r.
  - assert (y ∉ acc) as Hy.
    { apply NoDup_app in Hnd as (_ & Hdisj & _). intros Hin.
      apply (Hdisj y Hin). apply list_elem_of_here. }
    rewrite bool_decide_eq_false_2 by done.
    rewrite IH; [by rewrite <- app_assoc|]. by rewrite <- app_assoc.
Qed.

Lemma normalize_cycle_NoDup l : NoDup (normalize_cycle l).
Proof. apply normalize_from_NoDup. constructor. Qed.

Lemma normalize_cycle_elem l x : x ∈ normalize_cycle l ↔ x ∈ l.
Proof.
  unfold normalize_cycle. rewrite normalize_from_elem, elem_of_nil. tauto.
Qed.

Lemma normalize_cycle_id l : NoDup l → normalize_cycle l = l.
Proof. intros Hl. by apply (normalize_from_id l []). Qed.

(** X1. The normalisation of a cycle keeps exactly the names of its input,
    each once; it leaves a sequence of distinct names as it is, and so
    normalising twice is normalising once. *)
Theorem normalize_cycle_idempotent l :
  NoDup (normalize_cycle l) ∧
  (∀ x, x ∈ normalize_cycle l ↔ x ∈ l) ∧
  (NoDup l → normalize_cycle l = l) ∧
  normalize_cycle (normalize_cycle l) = normalize_cycle l.
Proof.
  split_and!.
  - apply normalize_cycle_NoDup.
  - apply normalize_cycle_elem.
  - apply normalize_cycle_id.
  - apply normalize_cycle_id, normalize_cycle_NoDup.
Qed.

(** ** Paths and cycles *)

Lemma edge_mono g g' a b :
  (∀ k r, dict_get g k = Some r → dict_get g' k = Some r) →
  edge g a b → edge g' a b.
Proof. intros Hkept (r & Hr & Hb). exists r. auto. Qed.

Lemma chain_mono g g' path :
  (∀ k r, dict_get g k = Some r → dict_get g' k = Some r) →
  chain g path → chain g' path.
Proof.
  intros Hkept. induction path as [|a [|b rest] IH]; simpl; try done.
  intros [Hab Hrest]. split; [by eapply edge_mono | by apply IH].
Qed.

Lemma chain_snoc g path p :
  chain g path → (∀ a, last path = Some a → edge g a p) →
  chain g (path ++ [p]).
Proof.
  induction path as [|a [|b rest] IH]; simpl.
  - done.
  - intros _ Hlast. split; [by apply Hlast | done].
  - intros [Hab Hrest] Hlast. split; [done|]. apply IH; [done|].
    intros c Hc. apply Hlast. done.
Qed.

Lemma chain_suffix g pre suf : chain g (pre ++ suf) → chain g suf.
Proof.
  induction pre as [|a pre IH]; simpl; [done|].
  destruct (pre ++ suf) as [|b rest] eqn:Heq.
  - apply app_eq_nil in Heq as [_ ->]. done.
  - intros [_ Hrest]. by apply IH.
Qed.

Lemma cycle_suffix_split p path :
  p ∈ path →
  ∃ pre suf, path = pre ++ p :: suf ∧ cycle_suffix p path = p :: suf.
Proof.
  induction path as [|x path IH]; intros Hin; [by apply elem_of_nil in Hin|].
  simpl. case_decide as Hx.
  - subst x. by exists [], path.
  - apply elem_of_cons in Hin as [->|Hin]; [done|].
    destruct (IH Hin) as (pre & suf & -> & Hsuf).
    exists (x :: pre), suf. done.
Qed.

Lemma path_closes_cycle g path p :
  NoDup path → chain g path → (∀ a, last path = Some a → edge g a p) →
  p ∈ path →
  is_cycle g (normalize_cycle (cycle_suffix p path)).
Proof.
  intros Hnd Hchain Hlast Hin.
  destruct (cycle_suffix_split p path Hin) as (pre & suf & Hpath & ->).
  assert (NoDup (p :: suf)) as Hnd'.
  { rewrite Hpath in Hnd. by apply NoDup_app in Hnd as (_ & _ & ?). }
  rewrite normalize_cycle_id by done. split_and!; [done | |].
  - rewrite Hpath in Hchain. by apply chain_suffix in Hchain.
  - destruct (last (p :: suf)) as [b|] eqn:Hb.
    + exists p, b. split_and!; [done | done |]. apply Hlast.
      rewrite Hpath. rewrite last_app. by rewrite Hb.
    + by apply last_None in Hb.
Qed.

(** ** Cycle finder *)

Lemma fold_calls_inv {S : Type} (I : S → Prop)
    (f : string → S → option S) xs :
  (∀ x s s', x ∈ xs → I s → f x s = Some s' → I s') →
  ∀ s s', I s → fold_calls f xs s = Some s' → I s'.
Proof.
  induction xs as [|x xs IH]; intros Hf s s' Hs; simpl.
  - by intros [= <-].
  - destruct (f x s) as [s1|] eqn:Hfx; [|done].
    apply IH.
    + intros y t t' Hy. apply Hf. by apply list_elem_of_further.
    + eapply Hf; [apply list_elem_of_here | done | done].
Qed.

Lemma fold_calls_total {S : Type} (P : S → Prop)
    (f : string → S → option S) xs :
  (∀ x s, x ∈ xs → P s → ∃ s', f x s = Some s' ∧ P s') →
  ∀ s, P s → ∃ s', fold_calls f xs s = Some s'.
Proof.
  induction xs as [|x xs IH]; intros Hf s Hs; simpl; [eauto|].
  destruct (Hf x s (list_elem_of_here _ _) Hs) as (s1 & -> & Hs1).
  apply IH; [|done].
  intros y t Hy. apply Hf. by apply list_elem_of_further.
Qed.

Section CycleFinder.
Variable graph : list (string * node).

Lemma find_cycles_dfs_sound fuel : ∀ n path fs fs',
  NoDup path → chain graph path →
  (∀ a, last path = Some a → edge graph a n) →
  finder_ok graph fs →
  find_cycles_dfs graph fuel n path fs = Some fs' →
  finder_ok graph fs'.
Proof.
  induction fuel as [|fuel IH]; intros n path fs fs' Hnd Hchain Hlast Hfs;
    simpl; [done|].
  case_bool_decide as Hpath.
  - pose proof (path_closes_cycle _ _ _ Hnd Hchain Hlast Hpath) as Hcyc.
    case_bool_decide as Hknown; intros [= <-]; [done|].
    destruct Hfs as [Hnd' Hall]. split; simpl.
    + apply NoDup_app. split_and!; [done | | apply NoDup_singleton].
      intros c Hc Hc'. apply list_elem_of_singleton in Hc' as ->. done.
    + intros c Hc. apply elem_of_app in Hc as [Hc|Hc]; [by apply Hall|].
      by apply list_elem_of_singleton in Hc as ->.
  - case_bool_decide as Hseen; [by intros [= <-]|].
    destruct (dict_get graph n) as [info|] eqn:Hinfo; [|by intros [= <-]].
    apply (fold_calls_inv (finder_ok graph)); [|done].
    intros x s s' Hx Hs. apply IH; [ | | | done].
    + apply NoDup_app. split_and!; [done | | apply NoDup_singleton].
      intros y Hy Hy'. apply list_elem_of_singleton in Hy' as ->. done.
    + by apply chain_snoc.
    + intros a. rewrite last_snoc. intros [= <-]. by exists info.
Qed.

Lemma find_cycles_dfs_mono fuel : ∀ n path fs fs',
  find_cycles_dfs graph fuel n path fs = Some fs' → fs.2 ⊆ fs'.2.
Proof.
  induction fuel as [|fuel IH]; intros n path fs fs'; simpl; [done|].
  case_bool_decide; [case_bool_decide; by intros [= <-]|].
  case_bool_decide; [by intros [= <-]|].
  assert (fs.2 ⊆ {[n]} ∪ fs.2) as Hsub.
  { intros k Hk. apply elem_of_union. by right. }
  destruct (dict_get graph n) as [info|]; [|by intros [= <-]].
  apply (fold_calls_inv (fun s => fs.2 ⊆ s.2)); [|done].
  intros x s s' _ Hs Hrun. transitivity s.2; [done | by eapply IH].
Qed.

Lemma find_cycles_dfs_total fuel : ∀ n path fs,
  n ∈ graph_names graph →
  (unvisited (graph_names graph) fs.2 < fuel)%nat →
  ∃ fs', find_cycles_dfs graph fuel n path fs = Some fs'.
Proof.
  induction fuel as [|fuel IH]; intros n path fs Hn Hfuel; [lia|]. simpl.
  case_bool_decide; [case_bool_decide; eauto|].
  case_bool_decide as Hseen; [eauto|].
  destruct (dict_get graph n) as [info|] eqn:Hinfo; [|eauto].
  assert (unvisited (graph_names graph) ({[n]} ∪ fs.2) < fuel)%nat as Hless.
  { assert (unvisited (graph_names graph) ({[n]} ∪ fs.2)
            < unvisited (graph_names graph) fs.2)%nat; [|lia].
    apply (unvisited_lt _ _ _ n); [| done | done |].
    - intros k Hk. apply elem_of_union. by right.
    - apply elem_of_union. left. by apply elem_of_singleton. }
  apply (fold_calls_total
           (fun s => (unvisited (graph_names graph) s.2 < fuel)%nat));
    [|done].
  intros x s Hx Hs. destruct (IH x (path ++ [n]) s) as [s' Hrun]; [|done|].
  - unfold graph_names. apply elem_of_app. right.
    apply list_elem_of_bind. exists (n, info).
    split; [done | by apply dict_get_elem_of].
  - exists s'. split; [done|].
    pose proof (unvisited_le (graph_names graph) _ _
                  (find_cycles_dfs_mono _ _ _ _ _ Hrun)). lia.
Qed.
End CycleFinder.

(** X2. Every cycle that [_find_all_cycles] reports is a simple cycle of
    the graph it was given (distinct names, each depending on the next and
    the last on the first), and no cycle is reported twice. *)
Theorem find_all_cycles_sound graph fuel cycles :
  _find_all_cycles graph fuel = Some cycles →
  NoDup cycles ∧ ∀ c, c ∈ cycles → is_cycle graph c.
Proof.
  unfold _find_all_cycles. destruct (all_mappings graph); [|done].
  intros Hrun.
  destruct (fold_calls _ (dict_keys graph) ([], ∅)) as [fs|] eqn:Hfold;
    [|done].
  injection Hrun as <-.
  apply (fold_calls_inv (finder_ok graph) _ _) with (s := ([], ∅)) (s' := fs)
    in Hfold; [done | |].
  - intros x s s' _ Hs. case_bool_decide; [by intros [= <-]|].
    apply find_cycles_dfs_sound; [constructor | done | done | done].
  - split; [constructor|]. intros c Hc. by apply elem_of_nil in Hc.
Qed.

Lemma find_all_cycles_sound_witness :
  _find_all_cycles triangle_graph 5 = Some [["A"; "B"; "C"]] ∧
  NoDup [["A"; "B"; "C"]] ∧
  ∀ c, c ∈ [["A"; "B"; "C"]] → is_cycle triangle_graph c.
Proof.
  split; [vm_compute; reflexivity|].
  apply (find_all_cycles_sound triangle_graph 5). vm_compute. reflexivity.
Defined.

(** X3. On a graph whose records hold mappings [_find_all_cycles]
    terminates: its recursion is never deeper than the number of names the
    graph mentions (keys and dependency names), so with more fuel than that
    it returns a result. *)
Theorem find_all_cycles_terminates graph fuel :
  all_mappings graph = true →
  (length (graph_names graph) < fuel)%nat →
  is_Some (_find_all_cycles graph fuel).
Proof.
  intros Hall Hfuel. unfold _find_all_cycles. rewrite Hall.
  destruct (fold_calls_total (fun _ => True)
              (fun n fs =>
                 if bool_decide (n ∈ fs.2) then Some fs
                 else find_cycles_dfs graph fuel n [] fs)
              (dict_keys graph)) with (s := (([] : list (list string)),
                                             (∅ : gset string)))
    as [fs ->]; [|done|by eexists].
  intros x s Hx _. case_bool_decide; [eauto|].
  destruct (find_cycles_dfs_total graph fuel x [] s) as [s' Hs'].
  - unfold graph_names. apply elem_of_app. by left.
  - unfold unvisited. eapply Nat.le_lt_trans; [apply length_filter | done].
  - eauto.
Qed.

Lemma find_all_cycles_terminates_witness :
  all_mappings triangle_graph = true ∧
  (length (graph_names triangle_graph) < 8)%nat ∧
  is_Some (_find_all_cycles triangle_graph 8).
Proof.
  assert (length (graph_names triangle_graph) < 8)%nat as Hlen
    by (vm_compute; lia).
  split; [reflexivity|]. split; [exact Hlen|].
  exact (find_all_cycles_terminates triangle_graph 8 eq_refl Hlen).
Defined.

(** ** Discovery paths, levels and detected cycles *)

Lemma is_cycle_mono g g' c :
  (∀ k r, dict_get g k = Some r → dict_get g' k = Some r) →
  is_cycle g c → is_cycle g' c.
Proof.
  intros Hkept (Hnd & Hchain & a & b & Ha & Hb & Hedge).
  split_and!; [done | by eapply chain_mono |].
  exists a, b. split_and!; [done | done | by eapply edge_mono].
Qed.

Lemma trail_mono root st st' path p :
  records_kept st st' →
  visited_packages st ⊆ visited_packages st' →
  trail_ok root st path p → trail_ok root st' path p.
Proof.
  intros Hkept Hsub [Hnd Hchain Hlast Hlev Hroot Hhead Hvis]. split; try done.
  - by eapply chain_mono.
  - intros a Ha. eapply edge_mono; eauto.
  - intros i a Hi. destruct (Hlev i a Hi) as (r & Hr & Hl). eauto.
  - intros a Ha. apply Hsub. auto.
Qed.

Lemma trail_ok_initial root st : trail_ok root st [] root.
Proof.
  split; try done.
  - constructor.
  - intros a Ha. by apply elem_of_nil in Ha.
Qed.

Lemma store_records_kept p r st :
  session_ok st → p ∉ visited_packages st →
  records_kept st (store_node p r (mark_visited p st)).
Proof.
  intros Hok Hp k r' Hk. rewrite (store_fresh_graph p r st Hok Hp).
  by apply dict_get_app_l.
Qed.

Lemma store_get p r st k :
  dict_get (dependency_graph (store_node p r (mark_visited p st))) k =
  if decide (k = p) then Some r else dict_get (dependency_graph st) k.
Proof. simpl. apply dict_get_set. Qed.

Lemma trail_not_in_path root st path p :
  trail_ok root st path p → p ∉ visited_packages st → p ∉ path.
Proof. intros [_ _ _ _ _ _ Hvis] Hp Hin. apply Hp. auto. Qed.

Lemma tree_ok_store root st path p rec :
  session_ok st → tree_ok root st → trail_ok root st path p →
  p ∉ visited_packages st → level rec = length path →
  tree_ok root (store_node p rec (mark_visited p st)).
Proof.
  intros Hok [Hcnd Hcyc Hroot Hpar] Htrail Hp Hlevel.
  pose proof (store_records_kept p rec st Hok Hp) as Hkept.
  destruct Htrail as [Hnd Hchain Hlast Hlev Hr0 Hhead Hvis].
  split.
  - done.
  - intros c Hc. eapply is_cycle_mono; [exact Hkept | by apply Hcyc].
  - intros r. rewrite store_get. case_decide as Heq; [|apply Hroot].
    intros [= <-]. rewrite Hlevel.
    destruct path as [|a path]; [done|]. exfalso. apply Hp.
    rewrite <- Heq, <- (Hhead a eq_refl). apply Hvis, list_elem_of_here.
  - intros q r. rewrite store_get. case_decide as Heq.
    + subst q. intros [= <-] Hne.
      destruct (last path) as [a|] eqn:Ha.
      * destruct (Hlast a eq_refl) as (ra & Hra & Hdep).
        exists a, ra. split_and!; [by apply Hkept | done |].
        rewrite last_lookup in Ha.
        destruct (Hlev _ _ Ha) as (ra' & Hra' & Hl).
        rewrite Hra in Hra'. injection Hra' as <-.
        rewrite Hlevel, Hl. destruct path; [done|]. simpl. lia.
      * apply last_None in Ha. by destruct (Hne (Hr0 Ha)).
    + intros Hq Hne. destruct (Hpar q r Hq Hne) as (a & ra & Ha & Hdep & Hl).
      exists a, ra. split_and!; [by apply Hkept | done | done].
Qed.

Lemma tree_ok_note root st path p :
  tree_ok root st → trail_ok root st path p →
  tree_ok root (note_cycle p path st).
Proof.
  intros [Hcnd Hcyc Hroot Hpar] [Hnd Hchain Hlast _ _ _ _].
  unfold note_cycle. case_bool_decide as Hin; [|done].
  case_bool_decide as Hknown; [done|]. split; simpl; try done.
  - apply NoDup_app. split_and!; [done | | apply NoDup_singleton].
    intros c Hc Hc'. apply list_elem_of_singleton in Hc' as ->. done.
  - intros c Hc. apply elem_of_app in Hc as [Hc|Hc]; [by apply Hcyc|].
    apply list_elem_of_singleton in Hc as ->. by apply path_closes_cycle.
Qed.

Lemma trail_child root st path p rec d :
  session_ok st → trail_ok root st path p → p ∉ visited_packages st →
  level rec = length path → d ∈ mapping_keys (dependencies rec) →
  trail_ok root (store_node p rec (mark_visited p st)) (path ++ [p]) d.
Proof.
  intros Hok Htrail Hp Hlevel Hd.
  pose proof (store_records_kept p rec st Hok Hp) as Hkept.
  pose proof (trail_not_in_path _ _ _ _ Htrail Hp) as Hnotin.
  destruct Htrail as [Hnd Hchain Hlast Hlev Hr0 Hhead Hvis].
  split.
  - apply NoDup_app. split_and!; [done | | apply NoDup_singleton].
    intros y Hy Hy'. apply list_elem_of_singleton in Hy' as ->. done.
  - apply chain_snoc; [by eapply chain_mono|].
    intros a Ha. eapply edge_mono; eauto.
  - intros a. rewrite last_snoc. intros [= <-]. exists rec.
    split; [|done]. rewrite store_get. by rewrite decide_True.
  - intros i a Hi. apply lookup_app_Some in Hi as [Hi|[Hlen Hi]].
    + destruct (Hlev i a Hi) as (r & Hr & Hl). eauto.
    + apply list_lookup_singleton_Some in Hi as [Hi <-].
      exists rec. split; [rewrite store_get; by rewrite decide_True|].
      rewrite Hlevel. lia.
  - intros Hnil. by apply app_eq_nil in Hnil as [_ ?].
  - intros a. destruct path as [|b path]; simpl.
    + intros [= <-]. by apply Hr0.
    + intros [= <-]. by apply Hhead.
  - intros a Ha. simpl. apply elem_of_union.
    apply elem_of_app in Ha as [Ha|Ha]; [right; auto|].
    left. apply list_elem_of_singleton in Ha as ->.
    by apply elem_of_singleton.
Qed.

Lemma for_each_inv (J : visualizer → Prop)
    (f : string → visualizer → option outcome) xs :
  (∀ x s o, x ∈ xs → J s → f x s = Some o → J (final_state o)) →
  ∀ st o, J st → for_each f xs st = Some o → J (final_state o).
Proof.
  induction xs as [|x xs IH]; intros Hf st o Hst; simpl.
  - by intros [= <-].
  - destruct (f x st) as [o1|] eqn:Hfx; [|done].
    pose proof (Hf x st o1 (list_elem_of_here _ _) Hst Hfx) as Hs1.
    destruct o1 as [s1|e1 s1]; [|by intros [= <-]].
    apply IH; [|done].
    intros y s o2 Hy. apply Hf. by apply list_elem_of_further.
Qed.

Lemma visit_tree root w cfg fuel : ∀ p path st o,
  session_ok st → tree_ok root st → trail_ok root st path p →
  _build_graph_bfs_recursive w cfg fuel p path st = Some o →
  tree_ok root (final_state o).
Proof.
  induction fuel as [|fuel IH]; intros p path st o Hok Htree Htrail; [done|].
  rewrite visit_unfold. case_bool_decide as Hvis.
  - intros [= <-]. simpl. by apply tree_ok_note.
  - destruct (get_direct_dependencies w cfg p) as [value|[msg|msg|msg]]
      eqn:Hfetch.
    + unfold record_answer.
      set (rec := {| dependencies := value; level := length path;
                     error := None |}).
      set (st2 := store_node p rec (mark_visited p st)).
      assert (session_ok st2) as Hok2.
      { apply session_ok_store; [done | done |]. simpl. by intros [? ?]. }
      assert (tree_ok root st2) as Htree2 by (by eapply tree_ok_store).
      destruct (is_mapping value); [|by intros [= <-]].
      intros Hloop.
      apply (for_each_inv
               (fun s => session_ok s ∧ tree_ok root s ∧
                         records_kept st2 s ∧
                         visited_packages st2 ⊆ visited_packages s))
        in Hloop; [by destruct Hloop as (_ & ? & _) | |].
      * intros x s o2 Hx (Hs & Hts & Hkept & Hsub) Hrun.
        destruct (visit_spec w cfg fuel x (path ++ [p]) s o2 Hs Hrun)
          as [(Hs' & Hsub' & Hext' & _) _].
        split_and!.
        -- done.
        -- apply (IH x (path ++ [p]) s o2 Hs Hts); [|done].
           eapply trail_mono; [exact Hkept | exact Hsub |].
           by apply trail_child.
        -- intros k r Hk. by apply (extends_records_kept _ _ Hext'), Hkept.
        -- by transitivity (visited_packages s).
      * split_and!; [done | done | by intros k r Hk | done].
    + intros [= <-]. simpl. by eapply tree_ok_store.
    + by destruct (get_direct_dependencies_raises _ _ _ _ Hfetch).
    + by destruct (get_direct_dependencies_raises _ _ _ _ Hfetch).
Qed.

Lemma bfs_iteration_tree root fg item rest st queue' st' :
  session_ok st → tree_ok root st → queue_ok root st (item :: rest) →
  bfs_iteration fg item rest st = (queue', st') →
  tree_ok root st' ∧ queue_ok root st' queue'.
Proof.
  destruct item as [[p lvl] path]. intros Hok Htree Hqueue.
  destruct (Hqueue (p, lvl, path) (list_elem_of_here _ _)) as [Htrail Hlvl].
  simpl in Htrail, Hlvl. unfold bfs_iteration.
  case_bool_decide as Hvis.
  - intros [= <- <-]. split; [by apply tree_ok_note|].
    intros item Hitem.
    destruct (Hqueue item (list_elem_of_further _ _ _ Hitem)) as [Ht Hl].
    split; [|done].
    eapply trail_mono; [ | | exact Ht].
    + intros k r. by rewrite note_cycle_graph.
    + by rewrite note_cycle_visited.
  - assert (∀ rec item,
              item ∈ rest →
              trail_ok root (store_node p rec (mark_visited p st)) item.2
                item.1.1 ∧ item.1.2 = length item.2) as Hrest.
    { intros rec item Hitem.
      destruct (Hqueue item (list_elem_of_further _ _ _ Hitem)) as [Ht Hl].
      split; [|done].
      eapply trail_mono; [by apply store_records_kept | | exact Ht].
      intros k Hk. simpl. apply elem_of_union. by right. }
    destruct (dict_get fg p) as [deps|] eqn:Hfg; intros [= <- <-].
    + split; [by eapply tree_ok_store|].
      intros item Hitem. apply elem_of_app in Hitem as [Hitem|Hitem];
        [by apply Hrest|].
      apply list_elem_of_fmap in Hitem as (d & -> & Hd). simpl. split.
      * apply trail_child; [done | done | done | done |].
        simpl. by apply star_dict_keys.
      * rewrite length_app. simpl. lia.
    + split; [by eapply tree_ok_store | intros item; apply Hrest].
Qed.

Lemma bfs_loop_tree root fg fuel : ∀ queue st st',
  session_ok st → tree_ok root st → queue_ok root st queue →
  bfs_loop fuel fg queue st = Some st' → tree_ok root st'.
Proof.
  induction fuel as [|fuel IH]; intros queue st st' Hok Htree Hqueue;
    destruct queue as [|item rest]; simpl; try done.
  - by intros [= <-].
  - by intros [= <-].
  - destruct (bfs_iteration fg item rest st) as [queue1 st1] eqn:Hit.
    destruct (bfs_iteration_tree _ _ _ _ _ _ _ Hok Htree Hqueue Hit)
      as [Htree1 Hqueue1].
    destruct (bfs_iteration_keeps _ _ _ _ _ _ Hok Hit) as (Hok1 & _ & _).
    by apply IH.
Qed.

Lemma tree_ok_fresh root : tree_ok root fresh_visualizer.
Proof.
  split; simpl; try done.
  - constructor.
  - intros c Hc. by apply elem_of_nil in Hc.
Qed.

Lemma build_tree w cfg fuel st :
  build_dependency_graph_bfs w cfg fuel = Some (Done st) →
  tree_ok (package_name cfg) st.
Proof.
  assert (∀ st1, tree_ok (package_name cfg) st1 →
                 tree_ok (package_name cfg) (reverse_indexed st1))
    as Hrev by (by intros st1 [? ? ? ?]).
  intros Hbuild.
  destruct (build_done_traversal _ _ _ _ Hbuild) as (st1 & -> & _ & _ & Hrun).
  apply Hrev. destruct (repository_mode cfg).
  3: { destruct Hrun as (fg & _ & Hrun).
       eapply bfs_loop_tree;
         [apply session_ok_fresh | apply tree_ok_fresh | | exact Hrun].
       intros item Hitem. apply list_elem_of_singleton in Hitem as ->.
       split; [apply trail_ok_initial | done]. }
  all: apply (visit_tree _ _ _ _ _ _ _ _ session_ok_fresh
                (tree_ok_fresh _) (trail_ok_initial _ _) Hrun).
Qed.

Lemma ancestors_exist root st :
  tree_ok root st →
  ∀ l q r,
    dict_get (dependency_graph st) q = Some r → level r = l →
    ∃ ks, NoDup ks ∧ length ks = S l ∧
          ∀ k, k ∈ ks →
               ∃ rk, dict_get (dependency_graph st) k = Some rk ∧
                     (level rk ≤ l)%nat.
Proof.
  intros [_ _ Hroot Hpar]. induction l as [|l IH]; intros q r Hq Hl.
  - exists [q]. split_and!; [apply NoDup_singleton | done |].
    intros k Hk. apply list_elem_of_singleton in Hk as ->.
    exists r. split; [done | lia].
  - assert (q ≠ root) as Hne.
    { intros ->. rewrite (Hroot r Hq) in Hl. done. }
    destruct (Hpar q r Hq Hne) as (a & ra & Ha & _ & Hlev).
    destruct (IH a ra Ha) as (ks & Hnd & Hlen & Hks); [lia|].
    exists (q :: ks). split_and!.
    + apply NoDup_cons. split; [|done]. intros Hin.
      destruct (Hks q Hin) as (rq & Hrq & Hle).
      rewrite Hq in Hrq. injection Hrq as <-. lia.
    + simpl. by rewrite Hlen.
    + intros k Hk. apply elem_of_cons in Hk as [->|Hk].
      * exists r. split; [done | lia].
      * destruct (Hks k Hk) as (rk & Hrk & Hle). exists rk. split; [done|lia].
Qed.

(** X4. Every cycle a build detects is a simple cycle of the graph it
    produced (distinct packages, each depending on the next and the last on
    the first), and the list of detected cycles holds no cycle twice. *)
Theorem detected_cycles_are_cycles w cfg fuel st :
  build_dependency_graph_bfs w cfg fuel = Some (Done st) →
  NoDup (cycles_detected st) ∧
  ∀ c, c ∈ cycles_detected st → is_cycle (dependency_graph st) c.
Proof.
  intros Hbuild. by destruct (build_tree _ _ _ _ Hbuild) as [? ? _ _].
Qed.

Lemma detected_cycles_are_cycles_witness :
  ∃ st,
    build_dependency_graph_bfs sample_world cyclic_config 6 = Some (Done st) ∧
    cycles_detected st = [["A"; "B"; "C"]] ∧
    NoDup (cycles_detected st) ∧
    ∀ c, c ∈ cycles_detected st → is_cycle (dependency_graph st) c.
Proof.
  eexists. split; [vm_compute; reflexivity|]. split; [reflexivity|].
  apply (detected_cycles_are_cycles sample_world cyclic_config 6).
  vm_compute. reflexivity.
Defined.

(** X5. In the graph of a completed build the levels follow the
    dependencies: the root package is the only one at level 0, every other
    package is exactly one level below some package that lists it as a
    dependency, and every level is smaller than the number of packages. *)
Theorem levels_follow_dependencies w cfg fuel st q r :
  build_dependency_graph_bfs w cfg fuel = Some (Done st) →
  dict_get (dependency_graph st) q = Some r →
  (level r = 0 ↔ q = package_name cfg) ∧
  (q ≠ package_name cfg →
   ∃ a ra, dict_get (dependency_graph st) a = Some ra ∧
           q ∈ mapping_keys (dependencies ra) ∧
           level r = S (level ra)) ∧
  (level r < length (dependency_graph st))%nat.
Proof.
  intros Hbuild Hq. pose proof (build_tree _ _ _ _ Hbuild) as Htree.
  split_and!.
  - split.
    + intros H0. destruct (decide (q = package_name cfg)) as [|Hne]; [done|].
      destruct (tree_parent _ _ Htree q r Hq Hne) as (a & ra & _ & _ & Hl).
      lia.
    + intros ->. by apply (tree_root _ _ Htree).
  - by apply (tree_parent _ _ Htree).
  - destruct (ancestors_exist _ _ Htree (level r) q r Hq eq_refl)
      as (ks & Hnd & Hlen & Hks).
    assert (ks ⊆+ dict_keys (dependency_graph st)) as Hsub.
    { apply NoDup_submseteq; [done|]. intros k Hk.
      destruct (Hks k Hk) as (rk & Hrk & _).
      apply dict_get_is_Some. by exists rk. }
    apply submseteq_length in Hsub. unfold dict_keys in Hsub.
    rewrite length_fmap in Hsub. lia.
Qed.

Lemma levels_follow_dependencies_witness :
  ∃ st r,
    build_dependency_graph_bfs sample_world webapp_config 10 = Some (Done st) ∧
    dict_get (dependency_graph st) "accepts" = Some r ∧
    level r = 2 ∧
    (level r = 0 ↔ "accepts" = package_name webapp_config) ∧
    ("accepts" ≠ package_name webapp_config →
     ∃ a ra, dict_get (dependency_graph st) a = Some ra ∧
             "accepts" ∈ mapping_keys (dependencies ra) ∧
             level r = S (level ra)) ∧
    (level r < length (dependency_graph st))%nat.
Proof.
  eexists. eexists.
  split; [vm_compute; reflexivity|].
  split; [vm_compute; reflexivity|].
  split; [reflexivity|].
  eapply (levels_follow_dependencies sample_world webapp_config 10 _
            "accepts"); vm_compute; reflexivity.
Defined.

(** ** Keys and buckets of the reverse index *)

Lemma dict_set_NoDup {V : Type} (d : list (string * V)) k v :
  NoDup (dict_keys d) → NoDup (dict_keys (dict_set d k v)).
Proof.
  intros Hnd. rewrite dict_keys_set. case_decide as Hk; [done|].
  apply NoDup_app. split_and!; [done | | apply NoDup_singleton].
  intros x Hx Hx'. apply list_elem_of_singleton in Hx' as ->. done.
Qed.

Lemma add_reverse_get p rev dep d :
  dict_get (add_reverse p rev dep) d =
  if decide (d = dep) then
    Some (if decide (p ∈ bucket rev dep) then bucket rev dep
          else bucket rev dep ++ [p])
  else dict_get rev d.
Proof.
  unfold add_reverse, bucket.
  destruct (dict_has rev dep) eqn:Hhas.
  - apply dict_has_true, dict_get_is_Some in Hhas as [b Hb]. rewrite Hb.
    simpl. case_bool_decide as Hp.
    + rewrite (decide_True (P := p ∈ b)) by done.
      case_decide as Hd; [by subst d | done].
    + rewrite (decide_False (P := p ∈ b)) by done.
      rewrite dict_get_set. by case_decide.
  - assert (dict_get rev dep = None) as Hnone.
    { apply dict_get_None. intros Hin. apply dict_has_true in Hin. congruence. }
    rewrite dict_get_set, decide_True by done.
    rewrite bool_decide_eq_false_2 by apply not_elem_of_nil.
    rewrite !dict_get_set, Hnone. simpl.
    by repeat case_decide.
Qed.

Lemma add_reverse_NoDup p rev dep :
  NoDup (dict_keys rev) → NoDup (dict_keys (add_reverse p rev dep)).
Proof.
  intros Hnd. unfold add_reverse.
  assert (NoDup (dict_keys (if dict_has rev dep then rev
                            else dict_set rev dep []))) as Hnd1.
  { destruct (dict_has rev dep); [done | by apply dict_set_NoDup]. }
  destruct (dict_get _ dep) as [b|]; [|done].
  case_bool_decide; [done | by apply dict_set_NoDup].
Qed.

Lemma add_reverse_ok p rev dep : reverse_ok rev → reverse_ok (add_reverse p rev dep).
Proof.
  intros [Hnd Hne]. split; [by apply add_reverse_NoDup|].
  intros d b. rewrite add_reverse_get. case_decide as Hd; [|apply Hne].
  intros [= <-]. case_decide as Hp.
  - intros Hnil. rewrite Hnil in Hp. by apply elem_of_nil in Hp.
  - intros Hnil. by apply app_eq_nil in Hnil as [_ ?].
Qed.

Lemma add_reverse_keys p rev dep k :
  k ∈ dict_keys (add_reverse p rev dep) ↔ k ∈ dict_keys rev ∨ k = dep.
Proof.
  rewrite <- !dict_get_is_Some, add_reverse_get.
  case_decide as Hk.
  - split; [by right | intros _; by eexists].
  - split; [by left | by intros [?|?]].
Qed.

Lemma add_all_ok p ks : ∀ rev,
  reverse_ok rev → reverse_ok (foldl (add_reverse p) rev ks).
Proof.
  induction ks as [|k ks IH]; intros rev Hrev; cbn [foldl]; [done|].
  by apply IH, add_reverse_ok.
Qed.

Lemma add_all_keys p ks : ∀ rev k,
  k ∈ dict_keys (foldl (add_reverse p) rev ks) ↔ k ∈ dict_keys rev ∨ k ∈ ks.
Proof.
  induction ks as [|x ks IH]; intros rev k; cbn [foldl].
  - rewrite elem_of_nil. tauto.
  - rewrite IH, add_reverse_keys, elem_of_cons. tauto.
Qed.

Lemma reverse_fold_ok graph : ∀ rev,
  reverse_ok rev →
  reverse_ok
    (foldl (fun rev '(package, info) =>
              foldl (add_reverse package) rev (mapping_keys (dependencies info)))
           rev graph).
Proof.
  induction graph as [|[p info] graph IH]; intros rev Hrev; cbn [foldl];
    [done|].
  by apply IH, add_all_ok.
Qed.

Lemma reverse_fold_keys graph : ∀ rev k,
  k ∈ dict_keys
        (foldl (fun rev '(package, info) =>
                  foldl (add_reverse package) rev
                    (mapping_keys (dependencies info)))
               rev graph)
  ↔ k ∈ dict_keys rev ∨
    ∃ entry, entry ∈ graph ∧ k ∈ mapping_keys (dependencies entry.2).
Proof.
  induction graph as [|[p info] graph IH]; intros rev k; cbn [foldl].
  - split; [by left|]. intros [H|(e & He & _)]; [done|].
    by apply elem_of_nil in He.
  - rewrite IH, add_all_keys. split.
    + intros [[H|H]|(e & He & Hk)].
      * by left.
      * right. exists (p, info). split; [apply list_elem_of_here | done].
      * right. exists e. split; [by apply list_elem_of_further | done].
    + intros [H|(e & He & Hk)]; [by left; left|].
      apply elem_of_cons in He as [->|He]; [left; by right|].
      right. by exists e.
Qed.

(** X6. The reverse index has a bucket exactly for the names that are a
    dependency of some package of the graph: its keys are distinct, a name
    is a key if and only if an entry of the graph lists it, and no bucket is
    empty. *)
Theorem reverse_index_keys graph :
  NoDup (dict_keys (reverse_index graph)) ∧
  (∀ d, d ∈ dict_keys (reverse_index graph) ↔
        ∃ entry, entry ∈ graph ∧ d ∈ mapping_keys (dependencies entry.2)) ∧
  (∀ d b, dict_get (reverse_index graph) d = Some b → b ≠ []).
Proof.
  assert (reverse_ok ([] : list (string * list string))) as Hnil.
  { split; [constructor | done]. }
  destruct (reverse_fold_ok graph [] Hnil) as [Hnd Hne].
  split_and!; [done | | done].
  intros d. unfold reverse_index. rewrite reverse_fold_keys.
  split; [|by right]. intros [H|H]; [|done]. by apply elem_of_nil in H.
Qed.

(** ** Loading an adjacency file *)

Lemma strings_of_spec items : ∀ deps,
  strings_of items = Some deps ↔ items = JString <$> deps.
Proof.
  induction items as [|x items IH]; intros deps; simpl.
  - split.
    + intros [= <-]. done.
    + intros H. symmetry in H. apply fmap_nil_inv in H. by subst.
  - destruct x; try (split; [done | by destruct deps]).
    destruct (strings_of items) as [ds|] eqn:Hds; simpl.
    + split.
      * intros [= <-]. csimpl. f_equal. by apply IH.
      * destruct deps as [|d deps]; [done|]. csimpl. intros [= -> Hrest].
        apply IH in Hrest. by injection Hrest as ->.
    + split; [done|]. destruct deps as [|d deps]; [done|]. csimpl.
      intros [= -> Hrest]. by apply IH in Hrest.
Qed.

Lemma validate_graph_spec members : ∀ graph,
  validate_graph members = Ok graph ↔
  members = (fun entry => (entry.1, JArray (JString <$> entry.2))) <$> graph.
Proof.
  induction members as [|[package v] members IH]; intros graph; simpl.
  - split.
    + by intros [= <-].
    + intros H. symmetry in H. apply fmap_nil_inv in H. by subst.
  - destruct v; try (split; [done | by destruct graph]).
    destruct (strings_of items) as [deps|] eqn:Hdeps.
    + apply strings_of_spec in Hdeps as ->.
      destruct (validate_graph members) as [g|e] eqn:Hg.
      * split.
        -- intros [= <-]. csimpl. f_equal. by apply IH.
        -- destruct graph as [|[q ds] graph]; [done|]. csimpl.
           intros [= -> Hds Hrest]. apply IH in Hrest.
           injection Hrest as ->.
           assert (Some deps = Some ds) as Heq.
           { rewrite <- (proj2 (strings_of_spec _ deps) eq_refl).
             rewrite Hds. by apply strings_of_spec. }
           by injection Heq as ->.
      * split; [done|]. destruct graph as [|[q ds] graph]; [done|]. csimpl.
        intros [= -> Hds Hrest]. by apply IH in Hrest.
    + split; [done|]. destruct graph as [|[q ds] graph]; [done|]. csimpl.
      intros [= -> Hds Hrest].
      assert (strings_of items = Some ds) as H by (by apply strings_of_spec).
      congruence.
Qed.

(** X7. Loading an adjacency file succeeds with a mapping exactly when the
    parsed file is the JSON object of that mapping (its packages in order,
    each with the array of its dependency names): what is loaded is what the
    file says, and every such file loads. *)
Theorem load_graph_roundtrip w path graph :
  _load_graph_from_file w path = Ok graph ↔
  graph_json w path = Content (graph_to_json graph).
Proof.
  unfold _load_graph_from_file, graph_to_json.
  destruct (graph_json w path) as [|msg|msg|msg|j]; try done.
  destruct j; try done. rewrite validate_graph_spec. split.
  - by intros ->.
  - by intros [= ->].
Qed.

(** ** Version selection *)

Lemma insert_desc_elem x l y : y ∈ insert_desc x l ↔ y = x ∨ y ∈ l.
Proof.
  induction l as [|z l IH]; simpl.
  - rewrite list_elem_of_singleton, elem_of_nil. tauto.
  - destruct (String.ltb z x).
    + by rewrite elem_of_cons.
    + rewrite !elem_of_cons, IH. tauto.
Qed.

Lemma sorted_reverse_elem l y : y ∈ sorted_reverse l ↔ y ∈ l.
Proof.
  induction l as [|x l IH]; simpl; [done|].
  by rewrite insert_desc_elem, elem_of_cons, IH.
Qed.

Lemma find_Some_elem (f : string → bool) l v :
  List.find f l = Some v → v ∈ l ∧ f v = true.
Proof.
  intros H. apply List.find_some in H as [Hin Hf].
  split; [by apply list_elem_of_In | done].
Qed.

Lemma find_None_elem (f : string → bool) l y :
  List.find f l = None → y ∈ l → f y = false.
Proof.
  intros H Hy. apply list_elem_of_In in Hy.
  by apply (List.find_none f l H).
Qed.

Lemma has_dependencies_known versions v :
  version_has_dependencies versions v = true → v ∈ dict_keys versions.
Proof.
  unfold version_has_dependencies. intros H.
  apply dict_get_is_Some. by destruct (dict_get versions v).
Qed.

Lemma selected_version_known info v :
  _find_version_with_dependencies info = Some v →
  v ∈ dict_keys (default [] (info_versions info)).
Proof.
  unfold _find_version_with_dependencies.
  set (versions := default [] (info_versions info)).
  set (latest := dict_get (default [] (info_dist_tags info)) "latest").
  assert (latest_known latest versions = true → latest = Some v →
          v ∈ dict_keys versions) as Hlatest.
  { intros Hk ->. simpl in Hk. apply andb_prop in Hk as [_ Hk].
    by apply dict_has_true. }
  destruct (latest_known latest versions && _) eqn:Hfirst.
  - apply andb_prop in Hfirst as [Hk _]. by apply Hlatest.
  - destruct (List.find _ _) as [x|] eqn:Hfind.
    + intros [= <-]. apply find_Some_elem in Hfind as [Hin _].
      by apply (proj1 (sorted_reverse_elem _ _)).
    + destruct (latest_known latest versions) eqn:Hk; [by apply Hlatest|].
      destruct (sorted_reverse (dict_keys versions)) as [|x l] eqn:Hsorted;
        [done|].
      intros [= <-]. apply sorted_reverse_elem. rewrite Hsorted.
      apply list_elem_of_here.
Qed.

(** X8. The version selection only ever returns a version string that is a
    key of the registry's "versions" object; hence in remote-registry mode,
    once the registry has answered (with an answer of the shape of
    [package_info]), the indexing by the selected version does not fail,
    and the lookup returns, as it is, the value that this version holds
    under "dependencies" (which need not be a mapping), or the empty mapping
    when the version has no such member or no version is selected. *)
Theorem remote_lookup_answers w cfg p info :
  repository_mode cfg = REMOTE →
  npm_registry w p = inr info →
  (∀ v, _find_version_with_dependencies info = Some v →
        v ∈ dict_keys (default [] (info_versions info))) ∧
  match _find_version_with_dependencies info with
  | Some v =>
      if bool_decide (v = "") then
        get_direct_dependencies w cfg p = Ok (Mapping [])
      else
        ∃ vd, dict_get (default [] (info_versions info)) v = Some vd ∧
              get_direct_dependencies w cfg p =
                Ok (default (Mapping []) (version_dependencies vd))
  | None => get_direct_dependencies w cfg p = Ok (Mapping [])
  end.
Proof.
  intros Hmode Hinfo. split; [intros v; apply selected_version_known|].
  unfold get_direct_dependencies. rewrite Hmode, Hinfo.
  destruct (_find_version_with_dependencies info) as [v|] eqn:Hv; [|done].
  case_bool_decide; [done|].
  apply selected_version_known in Hv.
  destruct (info_versions info) as [versions|]; simpl in Hv.
  - apply dict_get_is_Some in Hv as [vd Hvd]. exists vd. simpl.
    by rewrite Hvd.
  - by apply elem_of_nil in Hv.
Qed.

Lemma remote_lookup_answers_witness :
  repository_mode registry_config = REMOTE ∧
  npm_registry (registry_world null_info) "pkg" = inr null_info ∧
  _find_version_with_dependencies null_info = Some "1.0.0" ∧
  get_direct_dependencies (registry_world null_info) registry_config "pkg"
    = Ok Null ∧
  get_direct_dependencies (registry_world tagged_info) registry_config "pkg"
    = Ok (Mapping [("b", JString "^2")]).
Proof.
  split; [reflexivity|]. split; [reflexivity|]. split; [reflexivity|].
  destruct (remote_lookup_answers (registry_world null_info) registry_config
              "pkg" null_info eq_refl eq_refl) as [_ Hnull].
  destruct (remote_lookup_answers (registry_world tagged_info)
              registry_config "pkg" tagged_info eq_refl eq_refl)
    as [_ Htagged].
  split.
  - destruct Hnull as (vd & Hvd & ->). by injection Hvd as <-.
  - destruct Htagged as (vd & Hvd & ->). by injection Hvd as <-.
Defined.

(** X9. Whenever some version of the package has a non-empty dependency
    mapping (passes the truth test of the code on its "dependencies"), the
    version selection returns a version that has one. *)
Theorem version_with_dependencies_found info v0 :
  version_has_dependencies (default [] (info_versions info)) v0 = true →
  ∃ v, _find_version_with_dependencies info = Some v ∧
       version_has_dependencies (default [] (info_versions info)) v = true.
Proof.
  intros H0. unfold _find_version_with_dependencies.
  set (versions := default [] (info_versions info)) in *.
  set (latest := dict_get (default [] (info_dist_tags info)) "latest").
  destruct (latest_known latest versions && _) eqn:Hfirst.
  - apply andb_prop in Hfirst as [_ Hdeps].
    destruct latest as [l|]; [|done]. by exists l.
  - destruct (List.find _ _) as [x|] eqn:Hfind.
    + exists x. split; [done|]. by apply find_Some_elem in Hfind as [_ ?].
    + exfalso.
      assert (version_has_dependencies versions v0 = false) as Hf; [|congruence].
      apply (find_None_elem _ _ _ Hfind), sorted_reverse_elem.
      by apply has_dependencies_known.
Qed.

Lemma version_with_dependencies_found_witness :
  version_has_dependencies (default [] (info_versions tagged_info)) "1.0.0"
    = true ∧
  ∃ v, _find_version_with_dependencies tagged_info = Some v ∧
       version_has_dependencies (default [] (info_versions tagged_info)) v
         = true.
Proof.
  split; [reflexivity|].
  exact (version_with_dependencies_found tagged_info "1.0.0" eq_refl).
Defined.

Lemma insert_desc_sorted x l :
  StronglySorted (fun a b => String.leb b a = true) l →
  StronglySorted (fun a b => String.leb b a = true) (insert_desc x l).
Proof.
  induction l as [|y l IH]; simpl; intros Hl.
  - repeat constructor.
  - apply StronglySorted_inv in Hl as [Hl Hy].
    destruct (String.ltb y x) eqn:Hyx.
    + constructor; [by constructor|]. constructor.
      * by apply string_ltb_leb.
      * eapply Forall_impl; [exact Hy|]. simpl. intros z Hz.
        eapply string_leb_trans; [exact Hz | by apply string_ltb_leb].
    + constructor; [by apply IH|]. apply Forall_forall. intros z Hz.
      apply insert_desc_elem in Hz as [->|Hz].
      * by apply string_ltb_false.
      * by apply (proj1 (Forall_forall _ _) Hy).
Qed.

Lemma sorted_reverse_sorted l :
  StronglySorted (fun a b => String.leb b a = true) (sorted_reverse l).
Proof.
  induction l as [|x l IH]; simpl; [constructor | by apply insert_desc_sorted].
Qed.

Lemma find_first_greatest (f : string → bool) l v :
  StronglySorted (fun a b => String.leb b a = true) l →
  List.find f l = Some v →
  ∀ y, y ∈ l → f y = true → String.leb y v = true.
Proof.
  induction l as [|x l IH]; simpl; intros Hl; [done|].
  apply StronglySorted_inv in Hl as [Hl Hx].
  destruct (f x) eqn:Hfx.
  - intros [= <-] y Hy _. apply elem_of_cons in Hy as [->|Hy].
    + apply string_leb_cases. by right.
    + by apply (proj1 (Forall_forall _ _) Hx).
  - intros Hfind y Hy Hfy. apply elem_of_cons in Hy as [->|Hy]; [congruence|].
    by apply IH.
Qed.

(** X10. When the "latest" tag does not name a known version with
    dependencies, a selected version that has dependencies is the greatest
    version string among all versions that have dependencies. *)
Theorem greatest_version_with_dependencies info v v' :
  latest_with_dependencies info = false →
  _find_version_with_dependencies info = Some v →
  version_has_dependencies (default [] (info_versions info)) v = true →
  version_has_dependencies (default [] (info_versions info)) v' = true →
  String.leb v' v = true.
Proof.
  unfold latest_with_dependencies, _find_version_with_dependencies.
  set (versions := default [] (info_versions info)).
  set (latest := dict_get (default [] (info_dist_tags info)) "latest").
  intros -> Hsel Hv Hv'.
  assert (v' ∈ sorted_reverse (dict_keys versions)) as Hin'.
  { by apply sorted_reverse_elem, has_dependencies_known. }
  destruct (List.find _ _) as [x|] eqn:Hfind.
  - injection Hsel as ->.
    by apply (find_first_greatest _ _ _ (sorted_reverse_sorted _) Hfind).
  - pose proof (find_None_elem _ _ _ Hfind Hin'). congruence.
Qed.

Lemma greatest_version_with_dependencies_witness :
  latest_with_dependencies tagged_info = false ∧
  _find_version_with_dependencies tagged_info = Some "2.0.0" ∧
  version_has_dependencies (default [] (info_versions tagged_info)) "2.0.0"
    = true ∧
  version_has_dependencies (default [] (info_versions tagged_info)) "1.0.0"
    = true ∧
  String.leb "1.0.0" "2.0.0" = true.
Proof.
  split; [reflexivity|]. split; [reflexivity|]. split; [reflexivity|].
  split; [reflexivity|].
  exact (greatest_version_with_dependencies tagged_info "2.0.0" "1.0.0"
           eq_refl eq_refl eq_refl eq_refl).
Defined.

(** ** Failures of the lookup *)

(** X11. Whatever goes wrong, [get_direct_dependencies] raises nothing but
    a [DependencyError]: a failure to load the adjacency file, or a
    manifest that is not a JSON object, reaches the caller as a
    [DependencyError] whose message is the original one behind a fixed
    prefix. *)
Theorem lookup_raises_only_dependency_error w cfg p :
  (∀ e, get_direct_dependencies w cfg p = Raise e →
        ∃ msg, e = DependencyError msg) ∧
  (∀ msg, repository_mode cfg = GRAPH_FILE →
          _load_graph_from_file w (repository_url cfg)
            = Raise (GraphError msg) →
          get_direct_dependencies w cfg p
            = Raise (DependencyError (unexpected msg))) ∧
  (∀ msg, repository_mode cfg = TEST →
          package_json w (repository_url cfg) p
            = Content (ManifestOther msg) →
          get_direct_dependencies w cfg p
            = Raise (DependencyError (unexpected msg))).
Proof.
  split_and!.
  - intros e. apply get_direct_dependencies_raises.
  - intros msg Hmode Hload. unfold get_direct_dependencies.
    by rewrite Hmode, Hload.
  - intros msg Hmode Hfile.
    unfold get_direct_dependencies, _get_dependencies_from_test_repo.
    by rewrite Hmode, Hfile.
Qed.

Lemma lookup_raises_only_dependency_error_witness :
  ∃ msg,
    repository_mode broken_config = GRAPH_FILE ∧
    _load_graph_from_file sample_world (repository_url broken_config)
      = Raise (GraphError msg) ∧
    get_direct_dependencies sample_world broken_config "A"
      = Raise (DependencyError (unexpected msg)).
Proof.
  eexists. split; [reflexivity|]. split; [reflexivity|].
  apply (proj1 (proj2 (lookup_raises_only_dependency_error
                         sample_world broken_config "A")));
    reflexivity.
Defined.

(** X12. In a completed build of a per-call mode every record of the graph
    is what the adapter answers for its package: the returned mapping and no
    error, or the raised message and no dependencies.  Every record of a
    completed build holds a mapping. *)
Theorem records_match_adapter w cfg fuel st q r :
  repository_mode cfg ≠ GRAPH_FILE →
  build_dependency_graph_bfs w cfg fuel = Some (Done st) →
  dict_get (dependency_graph st) q = Some r →
  (∀ deps, get_direct_dependencies w cfg q = Ok deps →
           dependencies r = deps ∧ error r = None) ∧
  (∀ msg, get_direct_dependencies w cfg q = Raise (DependencyError msg) →
          dependencies r = Mapping [] ∧ error r = Some msg) ∧
  is_mapping (dependencies r) = true.
Proof.
  intros Hmode Hbuild Hq.
  pose proof (build_per_call_records _ _ _ _ Hmode Hbuild q r Hq) as Hrec.
  split_and!.
  - intros deps Hdeps. by rewrite Hdeps in Hrec.
  - intros msg Hmsg. by rewrite Hmsg in Hrec.
  - destruct (build_done_traversal _ _ _ _ Hbuild) as (st1 & -> & _ & Hall & _).
    by apply (all_mappings_get _ q r Hall).
Qed.

Lemma records_match_adapter_witness :
  ∃ st r,
    repository_mode webapp_config ≠ GRAPH_FILE ∧
    build_dependency_graph_bfs sample_world webapp_config 10 = Some (Done st) ∧
    dict_get (dependency_graph st) "express" = Some r ∧
    get_direct_dependencies sample_world webapp_config "express"
      = Ok (Mapping [("accepts", JString "~1.3.8");
                     ("body-parser", JString "1.20.1")]) ∧
    dependencies r = Mapping [("accepts", JString "~1.3.8");
                              ("body-parser", JString "1.20.1")] ∧
    error r = None.
Proof.
  eexists. eexists.
  split; [done|].
  split; [vm_compute; reflexivity|].
  split; [vm_compute; reflexivity|].
  split; [reflexivity|].
  eapply (records_match_adapter sample_world webapp_config 10 _ "express").
  - done.
  - vm_compute. reflexivity.
  - vm_compute. reflexivity.
  - reflexivity.
Defined.

(** ** Records of an adjacency file *)

Lemma star_dict_keys_normalize deps : ∀ acc : list (string * json),
  dict_keys (foldl (fun m dep => dict_set m dep (JString "*")) acc deps) =
  foldl (fun normalized n =>
           if bool_decide (n ∈ normalized) then normalized
           else normalized ++ [n]) (dict_keys acc) deps.
Proof.
  induction deps as [|x deps IH]; intros acc; cbn [foldl]; [done|].
  rewrite IH, dict_keys_set. case_decide as Hx.
  - by rewrite bool_decide_eq_true_2.
  - by rewrite bool_decide_eq_false_2.
Qed.

Lemma star_dict_values deps : ∀ (acc : list (string * json)) d v,
  (∀ d' v', dict_get acc d' = Some v' → v' = JString "*") →
  dict_get (foldl (fun m dep => dict_set m dep (JString "*")) acc deps) d
    = Some v →
  v = JString "*".
Proof.
  induction deps as [|x deps IH]; intros acc d v Hacc; cbn [foldl].
  - apply Hacc.
  - apply IH. intros d' v'. rewrite dict_get_set.
    case_decide; [by intros [= <-] | apply Hacc].
Qed.

(** X13. In a completed adjacency-file build, a package that the file
    lists is recorded without error, with exactly the dependency names the
    file gives for it (in the file's order, a repeated name once) and the
    constraint "*" for each. *)
Theorem listed_package_record w cfg fuel file_graph st p deps r :
  repository_mode cfg = GRAPH_FILE →
  _load_graph_from_file w (repository_url cfg) = Ok file_graph →
  build_dependency_graph_bfs w cfg fuel = Some (Done st) →
  dict_get file_graph p = Some deps →
  dict_get (dependency_graph st) p = Some r →
  error r = None ∧
  ∃ members,
    dependencies r = Mapping members ∧
    dict_keys members = normalize_cycle deps ∧
    (∀ d v, dict_get members d = Some v → v = JString "*").
Proof.
  intros Hmode Hload Hbuild Hdeps Hr.
  destruct (build_graph_file_done _ _ _ _ _ Hmode Hload Hbuild)
    as (st1 & -> & [_ _ Hrec]).
  specialize (Hrec p r Hr). rewrite Hdeps in Hrec. destruct Hrec as [-> ->].
  split; [done|]. exists (star_dict deps). split_and!; [done | |].
  - unfold star_dict, normalize_cycle. by rewrite star_dict_keys_normalize.
  - intros d v. by apply star_dict_values.
Qed.

Lemma listed_package_record_witness :
  ∃ st r,
    repository_mode cyclic_config = GRAPH_FILE ∧
    _load_graph_from_file sample_world (repository_url cyclic_config)
      = Ok [("A", ["B"]); ("B", ["C"]); ("C", ["A"])] ∧
    build_dependency_graph_bfs sample_world cyclic_config 6 = Some (Done st) ∧
    dict_get [("A", ["B"]); ("B", ["C"]); ("C", ["A"])] "B" = Some ["C"] ∧
    dict_get (dependency_graph st) "B" = Some r ∧
    error r = None ∧
    ∃ members,
      dependencies r = Mapping members ∧
      dict_keys members = normalize_cycle ["C"] ∧
      (∀ d v, dict_get members d = Some v → v = JString "*").
Proof.
  eexists. eexists.
  split; [reflexivity|]. split; [reflexivity|].
  split; [vm_compute; reflexivity|]. split; [reflexivity|].
  split; [vm_compute; reflexivity|].
  eapply (listed_package_record sample_world cyclic_config 6 _ _ "B" ["C"]);
    try reflexivity; vm_compute; reflexivity.
Defined.

(** ** Edges of the two exports *)

Lemma string_length_app s t :
  String.length (s +:+ t) = String.length s + String.length t.
Proof. induction s as [|a s IH]; simpl; [done | by rewrite IH]. Qed.

Lemma string_app_inj_r t : ∀ s s', s +:+ t = s' +:+ t → s = s'.
Proof.
  induction s as [|a s IH]; intros [|b s'] H.
  - done.
  - apply (f_equal String.length) in H.
    rewrite !string_length_app in H. simpl in H. lia.
  - apply (f_equal String.length) in H.
    rewrite !string_length_app in H. simpl in H. lia.
  - change (String a (s +:+ t) = String b (s' +:+ t)) in H.
    injection H as -> H. f_equal. by apply IH.
Qed.

Lemma string_app_inj_l s : ∀ t t', s +:+ t = s +:+ t' → t = t'.
Proof.
  induction s as [|a s IH]; intros t t' H; [done|].
  change (String a (s +:+ t) = String a (s +:+ t')) in H.
  injection H as H. by apply IH.
Qed.

Lemma edge_line_inj e e' :
  "    " +:+ e +:+ ";" = "    " +:+ e' +:+ ";" → e = e'.
Proof.
  intros H. apply string_app_inj_l in H. by apply string_app_inj_r in H.
Qed.

Lemma add_edge_fold package deps : ∀ acc : list string * gset string,
  (∀ e, e ∈ acc.2 ↔ "    " +:+ e +:+ ";" ∈ acc.1) →
  (∀ e, e ∈ (foldl (add_edge package) acc deps).2 ↔
        "    " +:+ e +:+ ";" ∈ (foldl (add_edge package) acc deps).1) ∧
  (foldl (add_edge package) acc deps).1 =
  foldl (fun normalized n =>
           if bool_decide (n ∈ normalized) then normalized
           else normalized ++ [n]) acc.1 (edge_declaration package <$> deps).
Proof.
  induction deps as [|d deps IH]; intros acc Hacc; csimpl; [done|].
  destruct (IH (add_edge package acc d)) as [H1 H2].
  { unfold add_edge. case_bool_decide as He; [done|]. simpl. intros e.
    rewrite elem_of_union, elem_of_singleton, elem_of_app,
      list_elem_of_singleton, Hacc.
    unfold edge_declaration. split.
    - intros [->|H]; [by right | by left].
    - intros [H|H]; [by right | left; by apply edge_line_inj]. }
  split; [done|]. rewrite H2. f_equal.
  unfold add_edge. case_bool_decide as He.
  - rewrite bool_decide_eq_true_2; [done|]. by apply Hacc in He.
  - rewrite bool_decide_eq_false_2; [done|].
    intros Hin. apply He. by apply Hacc.
Qed.

Lemma edge_loop_fold graph : ∀ acc : list string * gset string,
  (∀ e, e ∈ acc.2 ↔ "    " +:+ e +:+ ";" ∈ acc.1) →
  (foldl (fun acc '(package, info) =>
            foldl (add_edge package) acc (mapping_keys (dependencies info)))
         acc graph).1 =
  foldl (fun normalized n =>
           if bool_decide (n ∈ normalized) then normalized
           else normalized ++ [n]) acc.1 (simple_edges graph).
Proof.
  induction graph as [|[p info] graph IH]; intros acc Hacc; [done|].
  cbn [foldl]. unfold simple_edges. rewrite bind_cons, foldl_app.
  destruct (add_edge_fold p (mapping_keys (dependencies info)) acc Hacc)
    as [H1 H2].
  rewrite <- H2. by apply IH.
Qed.

(** X14. The edge lines of the annotated export are the edge lines of the
    simple export with every repeated line dropped after its first
    occurrence: no line twice, the same lines, in the same order. *)
Theorem annotated_edges_are_simple_edges_once graph :
  edge_declarations graph = normalize_cycle (simple_edges graph) ∧
  NoDup (edge_declarations graph) ∧
  (∀ line, line ∈ edge_declarations graph ↔ line ∈ simple_edges graph).
Proof.
  assert (edge_declarations graph = normalize_cycle (simple_edges graph))
    as Heq.
  { unfold edge_declarations, normalize_cycle.
    rewrite edge_loop_fold; [done|]. intros e. simpl.
    rewrite elem_of_nil. split; [|done]. intros H.
    by apply not_elem_of_empty in H. }
  rewrite Heq. split_and!; [done | apply normalize_cycle_NoDup |].
  intros line. apply normalize_cycle_elem.
Qed.

(** ** An export is empty only for an empty graph *)

Lemma concat_two_nonempty sep a s x xs :
  String.concat sep (String a s :: x :: xs) ≠ "".
Proof. done. Qed.

(** X15. Either export is the empty string exactly when the dependency
    graph is empty. *)
Theorem export_empty_iff cfg st :
  (generate_graphviz cfg st = Some "" ↔ dependency_graph st = []) ∧
  (generate_simple_graphviz cfg st = Some "" ↔ dependency_graph st = []).
Proof.
  unfold generate_graphviz, generate_simple_graphviz, graphviz_header.
  destruct (dependency_graph st) as [|entry graph]; [done|].
  destruct (all_mappings (entry :: graph)); [|done].
  split; (split; [|done]); intros [= H]; exfalso;
    by apply concat_two_nonempty in H.
Qed.

(** ** Levels of the breadth-first build *)

Lemma level_ok_head item rest st :
  level_ok (item :: rest) st →
  ∃ q1 q2,
    rest = q1 ++ q2 ∧
    (∀ it, it ∈ q1 → it.1.2 = item.1.2) ∧
    (∀ it, it ∈ q2 → it.1.2 = S item.1.2) ∧
    ∀ q r, dict_get (dependency_graph st) q = Some r →
           (level r ≤ item.1.2)%nat.
Proof.
  intros [(l & q1 & q2 & Hq & H1 & H2 & Hrec) _].
  destruct q1 as [|it q1].
  - simpl in Hq. subst q2. exists rest, [].
    pose proof (H2 item (list_elem_of_here _ _)) as Hl.
    split_and!.
    + by rewrite app_nil_r.
    + intros it Hit. rewrite Hl. apply H2. by apply list_elem_of_further.
    + intros it Hit. by apply elem_of_nil in Hit.
    + intros q r Hr. specialize (Hrec q r Hr). lia.
  - injection Hq as <- ->. exists q1, q2.
    pose proof (H1 item (list_elem_of_here _ _)) as Hl.
    split_and!; [done | | |].
    + intros it Hit. rewrite Hl. apply H1. by apply list_elem_of_further.
    + intros it Hit. rewrite Hl. by apply H2.
    + intros q r Hr. rewrite Hl. by apply (Hrec q r).
Qed.

Lemma bfs_iteration_level fg item rest st queue' st' :
  session_ok st → level_ok (item :: rest) st →
  bfs_iteration fg item rest st = (queue', st') →
  level_ok queue' st'.
Proof.
  destruct item as [[p lvl] path]. intros Hok Hlevel.
  destruct (level_ok_head _ _ _ Hlevel) as (q1 & q2 & Hq & H1 & H2 & Hrec).
  destruct Hlevel as [_ Hedge]. simpl in H1, H2, Hrec.
  unfold bfs_iteration. case_bool_decide as Hvis.
  - intros [= <- <-]. split.
    + exists lvl, q1, q2. by rewrite note_cycle_graph.
    + rewrite note_cycle_graph. intros a ra d Ha Hd.
      destruct (Hedge a ra d Ha Hd) as [H|[path' H]]; [by left|].
      apply elem_of_cons in H as [H|H]; [|right; by exists path'].
      injection H as -> <- _. left.
      apply (ok_visited _ Hok), dict_get_is_Some in Hvis as [rp Hrp].
      exists rp. split; [done | by apply (Hrec _ _ Hrp)].
  - pose proof (fun rec => store_records_kept p rec st Hok Hvis) as Hkept.
    assert (∀ ds err a ra d added,
              a ≠ p →
              dict_get (dependency_graph st) a = Some ra →
              d ∈ mapping_keys (dependencies ra) →
              (∃ rd, dict_get
                       (dependency_graph
                          (store_node p
                             {| dependencies := ds; level := lvl;
                                error := err |} (mark_visited p st))) d
                     = Some rd ∧ (level rd ≤ S (level ra))%nat) ∨
              (∃ path', (d, S (level ra), path') ∈ rest ++ added)) as Hold.
    { intros ds err a ra d added Hne Ha Hd.
      destruct (Hedge a ra d Ha Hd) as [(rd & Hrd & Hl)|[path' H]].
      - left. exists rd. split; [by apply Hkept | done].
      - apply elem_of_cons in H as [H|H].
        + injection H as -> <- _. left. eexists.
          rewrite store_get, decide_True by done. split; [done | simpl; lia].
        + right. exists path'. apply elem_of_app. by left. }
    destruct (dict_get fg p) as [deps|]; intros [= <- <-]; split.
    + exists lvl, q1, (q2 ++ ((fun dep_name => (dep_name, lvl + 1, path ++ [p]))
                               <$> deps)).
      split_and!.
      * by rewrite Hq, app_assoc.
      * done.
      * intros it Hit. apply elem_of_app in Hit as [Hit|Hit]; [by apply H2|].
        apply list_elem_of_fmap in Hit as (d & -> & _). simpl. lia.
      * intros q r. rewrite store_get. case_decide; [|apply Hrec].
        by intros [= <-].
    + intros a ra d. rewrite store_get. case_decide as Ha.
      * intros [= <-] Hd. simpl in Hd. rewrite star_dict_keys in Hd.
        right. exists (path ++ [p]). apply elem_of_app. right.
        apply list_elem_of_fmap. exists d. simpl.
        split; [by rewrite Nat.add_1_r | done].
      * intros Hget Hd. by apply (Hold _ _ a).
    + exists lvl, q1, q2. split_and!; [done..|].
      intros q r. rewrite store_get. case_decide; [|apply Hrec].
      by intros [= <-].
    + intros a ra d. rewrite store_get. case_decide as Ha.
      * intros [= <-] Hd. simpl in Hd. by apply elem_of_nil in Hd.
      * intros Hget Hd.
        destruct (Hold (Mapping [])
                    (Some ("Пакет " +:+ p +:+ " не найден в графе"))
                    a ra d [] Ha Hget Hd) as [H|[path' H]];
          [by left|].
        right. exists path'. by rewrite app_nil_r in H.
Qed.

Lemma bfs_loop_level fg fuel : ∀ queue st st',
  session_ok st → level_ok queue st →
  bfs_loop fuel fg queue st = Some st' → level_ok [] st'.
Proof.
  induction fuel as [|fuel IH]; intros queue st st' Hok Hlevel;
    destruct queue as [|item rest]; simpl; try done.
  - by intros [= <-].
  - by intros [= <-].
  - destruct (bfs_iteration fg item rest st) as [queue1 st1] eqn:Hit.
    pose proof (bfs_iteration_level _ _ _ _ _ _ Hok Hlevel Hit) as Hlevel1.
    destruct (bfs_iteration_keeps _ _ _ _ _ _ Hok Hit) as (Hok1 & _ & _).
    by apply IH.
Qed.

Lemma level_ok_initial root : level_ok [(root, 0, [])] fresh_visualizer.
Proof.
  split; [|done]. exists 0, [(root, 0, [])], [].
  split_and!; [done | | | done].
  - intros it Hit. by apply list_elem_of_singleton in Hit as ->.
  - intros it Hit. by apply elem_of_nil in Hit.
Qed.

Lemma file_build_levels w cfg fuel st :
  repository_mode cfg = GRAPH_FILE →
  build_dependency_graph_bfs w cfg fuel = Some (Done st) →
  ∀ a ra d,
    dict_get (dependency_graph st) a = Some ra →
    d ∈ mapping_keys (dependencies ra) →
    ∃ rd, dict_get (dependency_graph st) d = Some rd ∧
          (level rd ≤ S (level ra))%nat.
Proof.
  intros Hmode Hbuild.
  destruct (build_done_traversal _ _ _ _ Hbuild) as (st1 & -> & _ & _ & Hrun).
  rewrite Hmode in Hrun. destruct Hrun as (fg & _ & Hrun). simpl.
  destruct (bfs_loop_level _ _ _ _ _ session_ok_fresh
              (level_ok_initial (package_name cfg)) Hrun) as [_ Hedge].
  intros a ra d Ha Hd.
  destruct (Hedge a ra d Ha Hd) as [H|[path H]]; [done|].
  by apply elem_of_nil in H.
Qed.

Lemma chain_unsnoc g path p :
  chain g (path ++ [p]) →
  chain g path ∧ ∀ a, last path = Some a → edge g a p.
Proof.
  induction path as [|a [|b rest] IH]; simpl.
  - done.
  - intros [Hap _]. split; [done|]. by intros ? [= <-].
  - intros [Hab Hrest]. destruct (IH Hrest) as [Hchain Hlast].
    split; [done|]. intros c Hc. by apply Hlast.
Qed.

Lemma path_of_level root st :
  tree_ok root st →
  ∀ l q r,
    dict_get (dependency_graph st) q = Some r → level r = l →
    ∃ path, path_to (dependency_graph st) root path q ∧ length path = l.
Proof.
  intros [_ _ Hroot Hpar]. induction l as [|l IH]; intros q r Hq Hl.
  - destruct (decide (q = root)) as [->|Hne].
    + by exists [].
    + destruct (Hpar q r Hq Hne) as (a & ra & _ & _ & Hlev). lia.
  - assert (q ≠ root) as Hne.
    { intros ->. rewrite (Hroot r Hq) in Hl. done. }
    destruct (Hpar q r Hq Hne) as (a & ra & Ha & Hin & Hlev).
    destruct (IH a ra Ha) as (path & [Hchain Hhead] & Hlen); [lia|].
    exists (path ++ [a]). split; [split|].
    + apply chain_snoc; [done|]. rewrite last_snoc. intros ? [= <-].
      by exists ra.
    + destruct path; simpl in *; done.
    + rewrite length_app. simpl. lia.
Qed.

Lemma level_at_most_path root st :
  (∀ r, dict_get (dependency_graph st) root = Some r → level r = 0) →
  (∀ a ra d,
     dict_get (dependency_graph st) a = Some ra →
     d ∈ mapping_keys (dependencies ra) →
     ∃ rd, dict_get (dependency_graph st) d = Some rd ∧
           (level rd ≤ S (level ra))%nat) →
  ∀ path q r,
    path_to (dependency_graph st) root path q →
    dict_get (dependency_graph st) q = Some r →
    (level r ≤ length path)%nat.
Proof.
  intros Hroot Hedge path.
  induction path as [|a path IH] using rev_ind; intros q r [Hchain Hhead] Hq.
  - simpl in Hhead. injection Hhead as ->. rewrite (Hroot r Hq). done.
  - apply chain_unsnoc in Hchain as [Hchain Hlast].
    destruct (Hlast a) as (ra & Ha & Hin); [by rewrite last_snoc|].
    assert (level ra ≤ length path)%nat as Hla.
    { apply (IH a ra); [|done]. split; [done|].
      destruct path; simpl in *; done. }
    destruct (Hedge a ra q Ha Hin) as (rq & Hrq & Hl).
    rewrite Hq in Hrq. injection Hrq as <-.
    rewrite length_app. simpl. lia.
Qed.

(** X16. In a completed adjacency-file build the level of a package is its
    distance from the root: the graph has a dependency path from the root to
    the package with as many steps as the level, and none with fewer; along
    every dependency the level grows by at most one. *)
Theorem file_build_levels_are_distances w cfg fuel st q r :
  repository_mode cfg = GRAPH_FILE →
  build_dependency_graph_bfs w cfg fuel = Some (Done st) →
  dict_get (dependency_graph st) q = Some r →
  (∃ path, path_to (dependency_graph st) (package_name cfg) path q ∧
           length path = level r) ∧
  (∀ path, path_to (dependency_graph st) (package_name cfg) path q →
           (level r ≤ length path)%nat) ∧
  (∀ d, d ∈ mapping_keys (dependencies r) →
        ∃ rd, dict_get (dependency_graph st) d = Some rd ∧
              (level rd ≤ S (level r))%nat).
Proof.
  intros Hmode Hbuild Hq.
  pose proof (build_tree _ _ _ _ Hbuild) as Htree.
  pose proof (file_build_levels _ _ _ _ Hmode Hbuild) as Hedge.
  split_and!.
  - by apply (path_of_level _ _ Htree (level r) q r).
  - intros path Hpath.
    apply (level_at_most_path (package_name cfg) st (tree_root _ _ Htree)
             Hedge path q r Hpath Hq).
  - intros d Hd. by apply (Hedge q r d).
Qed.

Lemma file_build_levels_are_distances_witness :
  ∃ st r,
    repository_mode cyclic_config = GRAPH_FILE ∧
    build_dependency_graph_bfs sample_world cyclic_config 6 = Some (Done st) ∧
    dict_get (dependency_graph st) "C" = Some r ∧
    level r = 2 ∧
    (∃ path, path_to (dependency_graph st) (package_name cyclic_config) path "C" ∧
             length path = level r) ∧
    (∀ path, path_to (dependency_graph st) (package_name cyclic_config) path "C" →
             (level r ≤ length path)%nat) ∧
    (∀ d, d ∈ mapping_keys (dependencies r) →
          ∃ rd, dict_get (dependency_graph st) d = Some rd ∧
                (level rd ≤ S (level r))%nat).
Proof.
  eexists. eexists.
  split; [reflexivity|].
  split; [vm_compute; reflexivity|].
  split; [vm_compute; reflexivity|].
  split; [reflexivity|].
  eapply (file_build_levels_are_distances sample_world cyclic_config 6 _ "C");
    [reflexivity | vm_compute; reflexivity..].
Defined.

(** X17. The breadth-first build of a loaded adjacency file completes when
    it has fuel for the root and for every listed dependency, and more fuel
    does not change its result. *)
Theorem file_build_completes w cfg file_graph fuel :
  repository_mode cfg = GRAPH_FILE →
  _load_graph_from_file w (repository_url cfg) = Ok file_graph →
  (1 + sum_list (length <$> file_graph.*2) ≤ fuel)%nat →
  ∃ st, ∀ extra,
    build_dependency_graph_bfs w cfg (fuel + extra) = Some (Done st).
Proof.
  intros Hmode Hload Hfuel.
  destruct (build_graph_file_total _ _ _ _ Hmode Hload Hfuel) as [st Hst].
  exists st. intros extra. by apply build_more.
Qed.

Lemma file_build_completes_witness :
  ∃ st, ∀ extra,
    build_dependency_graph_bfs sample_world cyclic_config (4 + extra)
      = Some (Done st).
Proof.
  apply (file_build_completes sample_world cyclic_config
           [("A", ["B"]); ("B", ["C"]); ("C", ["A"])] 4).
  - reflexivity.
  - reflexivity.
  - vm_compute. lia.
Defined.

(** ** Answers that are not mappings *)

Lemma visit_reverse w cfg fuel : ∀ p path st o,
  _build_graph_bfs_recursive w cfg fuel p path st = Some o →
  reverse_dependencies (final_state o) = reverse_dependencies st.
Proof.
  induction fuel as [|fuel IH]; intros p path st o; [done|].
  rewrite visit_unfold. case_bool_decide.
  - intros [= <-]. unfold note_cycle. by repeat case_bool_decide.
  - destruct (get_direct_dependencies w cfg p) as [value|[msg|msg|msg]];
      [|by intros [= <-]..].
    destruct (is_mapping value); [|by intros [= <-]].
    apply (for_each_inv
             (fun s => reverse_dependencies s = reverse_dependencies st));
      [|done].
    intros x s o2 _ <-. apply IH.
Qed.

(** X18. An answer of the adapter that is not a mapping is not absorbed.
    The call of the builder on that package records the node with the
    answer as its dependencies and then ends with the [AttributeError] of
    [dependencies.keys()]; the loop over the sibling dependencies stops
    there; an enclosing call whose loop ends with an exception ends with
    the same exception in the same state; and the build ends with the
    exception of its traversal, the reverse index not rebuilt. *)
Theorem non_mapping_answer_aborts w cfg fuel p path st value :
  p ∉ visited_packages st →
  get_direct_dependencies w cfg p = Ok value →
  is_mapping value = false →
  _build_graph_bfs_recursive w cfg (S fuel) p path st
    = Some (Raised (OtherError (no_keys value))
              (record_answer p path value st)) ∧
  (∀ rest,
     for_each (fun dep => _build_graph_bfs_recursive w cfg (S fuel) dep path)
       (p :: rest) st
     = Some (Raised (OtherError (no_keys value))
               (record_answer p path value st))) ∧
  (∀ fuel' q path' st' members e s,
     q ∉ visited_packages st' →
     get_direct_dependencies w cfg q = Ok (Mapping members) →
     for_each
       (fun dep => _build_graph_bfs_recursive w cfg fuel' dep (path' ++ [q]))
       (dict_keys members) (record_answer q path' (Mapping members) st')
     = Some (Raised e s) →
     _build_graph_bfs_recursive w cfg (S fuel') q path' st'
     = Some (Raised e s)) ∧
  (∀ fuel' e s,
     repository_mode cfg ≠ GRAPH_FILE →
     _build_graph_bfs_recursive w cfg fuel' (package_name cfg) []
       fresh_visualizer = Some (Raised e s) →
     build_dependency_graph_bfs w cfg fuel' = Some (Raised e s) ∧
     reverse_dependencies s = []).
Proof.
  intros Hvis Hfetch Hvalue.
  assert (_build_graph_bfs_recursive w cfg (S fuel) p path st
          = Some (Raised (OtherError (no_keys value))
                    (record_answer p path value st))) as Hcall.
  { rewrite visit_unfold, bool_decide_eq_false_2 by done.
    by rewrite Hfetch, Hvalue. }
  split_and!.
  - exact Hcall.
  - intros rest. cbn [for_each]. by rewrite Hcall.
  - intros fuel' q path' st' members e s Hq Hanswer Hloop.
    rewrite visit_unfold, bool_decide_eq_false_2 by done.
    by rewrite Hanswer.
  - intros fuel' e s Hmode Hrun. split.
    + unfold build_dependency_graph_bfs.
      destruct (repository_mode cfg); [| |done]; by rewrite Hrun.
    + by apply (visit_reverse _ _ _ _ _ _ _ Hrun).
Qed.

Lemma non_mapping_answer_aborts_witness :
  ("broken" ∉ visited_packages fresh_visualizer) ∧
  get_direct_dependencies faulty_world faulty_config "broken" = Ok Null ∧
  is_mapping Null = false ∧
  no_keys Null = "'NoneType' object has no attribute 'keys'" ∧
  ∃ s,
    build_dependency_graph_bfs faulty_world faulty_config 5
      = Some (Raised (OtherError (no_keys Null)) s) ∧
    dependency_graph s =
      [("app",
        {| dependencies := Mapping [("broken", JString "^1.0.0");
                                    ("lib", JString "^2.0.0")];
           level := 0; error := None |});
       ("broken", {| dependencies := Null; level := 1; error := None |})] ∧
    reverse_dependencies s = [].
Proof.
  assert ("broken" ∉ visited_packages fresh_visualizer) as Hvis
    by apply not_elem_of_empty.
  split; [exact Hvis|]. split; [reflexivity|]. split; [reflexivity|].
  split; [reflexivity|].
  destruct (non_mapping_answer_aborts faulty_world faulty_config 0 "broken"
              ["app"] fresh_visualizer Null Hvis eq_refl eq_refl)
    as (_ & _ & _ & Hbuild).
  eexists.
  destruct (Hbuild 5 (OtherError (no_keys Null)) _ ltac:(done)
              ltac:(vm_compute; reflexivity)) as [Hrun Hrev].
  split; [exact Hrun|]. split; [vm_compute; reflexivity | exact Hrev].
Defined.
